(** * A persistent FIFO job queue over SQLite: model and properties

    Shallow embedding of [src/queue/persistantQueue.ts].

    The queue object is a record; the SQLite file is a record holding the
    job table, the one-row counter table and the AUTOINCREMENT sequence.
    Every public operation is a function from the queue object to a
    [result]: the object afterwards, the events emitted meanwhile and the
    way the call ended (returned, threw, promise fulfilled or rejected,
    process exit).  An operation is run until the event loop is idle again:
    the database is in serialized mode, so the callbacks, promise reactions
    and [setImmediate] tasks of one call run in the order the source
    schedules them, and the next operation is issued only afterwards.

    Numbers are integers ([Z]).  An id is a 64-bit integer in SQLite and a
    double in JavaScript: where sqlite3 hands an id to a callback it is
    rounded to the nearest double ([js_number]), which changes it beyond
    2^53 only.  Batch sizes are integers; a table has fewer than 2^53
    rows.  [JSON.stringify] and [JSON.parse] are parameters of the
    development, and so is whether the module runs as strict code, as the
    TypeScript compiler emits it, or as sloppy code ([strict]).  Statements
    sent to SQLite succeed ([err === null]) unless stated otherwise; what
    a statement reports ([lastID], [changes], the rows) is modelled. *)

From Stdlib Require Import List ZArith Bool String Ascii Lia.
From Stdlib Require Import Sorting.Sorted Sorting.Permutation DecimalString.
Import ListNotations.
Open Scope Z_scope.
Set Implicit Arguments.

(** ** JavaScript values *)

#[local] Unset Elimination Schemes.
Inductive jsval : Type :=
| VUndefined
| VNull
| VBool (b : bool)
| VNum (n : Z)
| VStr (s : string)
| VArr (items : list jsval)
| VObj (fields : list (string * jsval))
| VErr (name message : string).
#[local] Set Elimination Schemes.

Definition typeof (v : jsval) : string :=
  match v with
  | VUndefined => "undefined"
  | VBool _ => "boolean"
  | VNum _ => "number"
  | VStr _ => "string"
  | VNull | VArr _ | VObj _ | VErr _ _ => "object"
  end%string.

(** [v < 1] for a value already known to be a number. *)
Definition less_than_one (v : jsval) : bool :=
  match v with
  | VNum n => n <? 1
  | _ => false
  end.

Definition TypeError (what : string) : jsval := VErr "TypeError" what.
Definition SyntaxError : jsval := VErr "SyntaxError" "JSON.parse".
Definition Error (message : string) : jsval := VErr "Error" message.

(** Decimal rendering of a number inside a message. *)
Definition show_Z (n : Z) : string := NilZero.string_of_int (Z.to_int n).

(** [Number.MAX_SAFE_INTEGER], 2^53 - 1. *)
Definition max_safe_integer : Z := 9007199254740991.

(** The number JavaScript holds for a 64-bit integer that sqlite3 hands
    over: the nearest double, ties to the even significand.  Up to 2^53 in
    absolute value that is the integer itself; above, the low bits beyond
    the 53 of the significand are rounded away. *)
Definition js_number (n : Z) : Z :=
  let a := Z.abs n in
  let e := Z.log2 a - 52 in
  if e <=? 0 then n
  else
    let q := Z.shiftr a e in
    let r := Z.land a (Z.ones e) in
    let half := Z.shiftl 1 (e - 1) in
    let q' := if (half <? r) || ((r =? half) && Z.odd q) then q + 1 else q in
    Z.sgn n * Z.shiftl q' e.

(** An id JavaScript holds exactly. *)
Definition safe_id (n : Z) : Prop := Z.abs n <= max_safe_integer.

(** ** The SQLite file *)

(** [CREATE TABLE queue (id INTEGER PRIMARY KEY ASC AUTOINCREMENT, job TEXT)] *)
Record row : Type := { row_id : Z; row_job : string }.

(** The job table, the single row of [queue_count], the AUTOINCREMENT
    sequence (largest id handed out so far) and the number of [VACUUM]
    passes that were requested. *)
Record database : Type :=
  { rows : list row; counter : Z; seq : Z; vacuums : nat }.

(** What sqlite3 binds to [this] in a [function] callback of [run]. *)
Record statement : Type := { lastID : Z; changes : Z }.

Fixpoint insert_by_id (r : row) (l : list row) : list row :=
  match l with
  | [] => [r]
  | x :: l' =>
      if row_id r <=? row_id x then r :: l else x :: insert_by_id r l'
  end.

(** [ORDER BY id ASC] *)
Definition order_by_id (l : list row) : list row :=
  fold_right insert_by_id [] l.

(** [LIMIT n]: a negative bound means no bound. *)
Definition limit (n : Z) (l : list row) : list row :=
  if n <? 0 then l else firstn (Z.to_nat n) l.

Definition max_rowid (l : list row) : Z :=
  fold_right (fun r m => Z.max (row_id r) m) 0 l.

(** The id AUTOINCREMENT gives the next row: one more than the largest of
    the ids in the table and of the ids ever handed out. *)
Definition next_rowid (d : database) : Z :=
  Z.max (max_rowid (rows d)) (seq d) + 1.

Definition has_id (i : Z) (r : row) : bool := row_id r =? i.
Definition keeps (i : Z) (r : row) : bool := negb (has_id i r).

(** The schema script of [open]: the tables and triggers are created when
    absent, and the counter is set to [count( * )] of the job table. *)
Definition sql_schema (d : database) : database :=
  {| rows := rows d; counter := Z.of_nat (List.length (rows d));
     seq := seq d; vacuums := vacuums d |}.

(** [INSERT INTO queue (job) VALUES (?)]; the insert trigger adds one to
    the counter. *)
Definition sql_insert (d : database) (text : string) : database * statement :=
  let i := next_rowid d in
  ({| rows := rows d ++ [{| row_id := i; row_job := text |}];
      counter := counter d + 1; seq := i; vacuums := vacuums d |},
   {| lastID := i; changes := 1 |}).

(** [DELETE FROM queue WHERE id = ?]; the delete trigger takes one from the
    counter for every row deleted.  [lastID] means nothing after a
    statement that is not an insert. *)
Definition sql_delete (d : database) (i : Z) : database * statement :=
  let n := Z.of_nat (List.length (filter (has_id i) (rows d))) in
  ({| rows := filter (keeps i) (rows d);
      counter := counter d - n; seq := seq d; vacuums := vacuums d |},
   {| lastID := 0; changes := n |}).

(** [SELECT * FROM queue ORDER BY id ASC LIMIT n] *)
Definition sql_select_batch (d : database) (n : Z) : list row :=
  limit n (order_by_id (rows d)).

(** [SELECT id FROM queue where id = ?], through [get]: the first row or
    [undefined]. *)
Definition sql_get_id (d : database) (i : Z) : option row :=
  find (has_id i) (rows d).

(** [SELECT id FROM queue where job = ? ORDER BY id ASC] *)
Definition sql_search (d : database) (text : string) : list Z :=
  map row_id (filter (fun r => String.eqb (row_job r) text) (order_by_id (rows d))).

(** [SELECT counter FROM queue_count LIMIT 1] *)
Definition sql_count (d : database) : Z := counter d.

(** [VACUUM;] *)
Definition sql_vacuum (d : database) : database :=
  {| rows := rows d; counter := counter d; seq := seq d;
     vacuums := S (vacuums d) |}.

(** A row as the callback of [all] receives it. *)
Definition row_value (r : row) : jsval :=
  VObj [("id"%string, VNum (js_number (row_id r)));
        ("job"%string, VStr (row_job r))].

(** ** Orders on rows and ids *)

Definition id_le (a b : row) : Prop := row_id a <= row_id b.
Definition id_lt (a b : row) : Prop := row_id a < row_id b.

(** Strictly ascending ids. *)
Definition ascending (l : list Z) : Prop := StronglySorted Z.lt l.


(** ** A concrete codec, for closed examples

    Payloads that are strings without quotes or backslashes:
    [JSON.stringify] wraps them in double quotes, [JSON.parse] takes the
    quotes off and refuses anything else. *)

Definition dquote : ascii := ascii_of_nat 34.

Definition str_stringify (s : string) : string :=
  String dquote (s ++ String dquote EmptyString).

Fixpoint unquote_tail (t : string) : option string :=
  match t with
  | EmptyString => None
  | String c EmptyString => if Ascii.eqb c dquote then Some EmptyString else None
  | String c t' =>
      if Ascii.eqb c dquote then None
      else option_map (String c) (unquote_tail t')
  end.

Definition str_parse (t : string) : option string :=
  match t with
  | String c t' => if Ascii.eqb c dquote then unquote_tail t' else None
  | EmptyString => None
  end.

(** A store that was never written, and one holding three jobs. *)
Definition empty_disk : database :=
  {| rows := []; counter := 0; seq := 0; vacuums := 0 |}.

Definition disk3 : database :=
  {| rows := [ {| row_id := 1; row_job := str_stringify "a" |};
               {| row_id := 2; row_job := str_stringify "b" |};
               {| row_id := 3; row_job := str_stringify "c" |} ];
     counter := 3; seq := 3; vacuums := 0 |}.

(** A store whose only job has the id 2^53 + 1. *)
Definition big_disk : database :=
  {| rows := [ {| row_id := 9007199254740993; row_job := str_stringify "a" |} ];
     counter := 1; seq := 9007199254740993; vacuums := 0 |}.

(** A store whose only row is not JSON. *)
Definition bad_disk : database :=
  {| rows := [ {| row_id := 1; row_job := "oops" |} ];
     counter := 1; seq := 1; vacuums := 0 |}.

(** ** The queue engine *)

Section Queue.

Variable payload : Type.
(** [JSON.stringify] and [JSON.parse] ([None]: it throws). *)
Variable stringify : payload -> string.
Variable parse : string -> option payload.
(** Whether the module runs as strict code.  The file is an ES module
    ([import] on its first line), so the TypeScript compiler emits it with
    ["use strict"]: [strict] is [true].  A loader that strips the types
    and rewrites the [import] without adding the directive (esbuild, tsx)
    runs the same text as sloppy code: [strict] is [false].  The one place
    where the two differ is the [this] of [countQueue]. *)
Variable strict : bool.

(** An entry of the in-memory window: [{ id: job.id, job: JSON.parse(job.job) }]. *)
Record Job : Type := { id : Z; job : payload }.

(** The fields the constructor creates.  [empty] is [undefined] ([None])
    until [open] settles it; [length] is [null] ([None]) until [countQueue]
    reads the counter; [db] is [null] ([None]) while no database is open.
    An entry of [queue] is [None] where [hydrateQueue] left [undefined]
    (a row whose text [JSON.parse] refused). *)
Record PersistentQueue : Type :=
  { debug : bool;
    empty : option bool;
    dbPath : string;
    batchSize : Z;
    queue : list (option Job);
    length : option Z;
    db : option database;
    opened : bool;
    run : bool }.

Definition set_debug (q : PersistentQueue) (v : bool) : PersistentQueue :=
  {| debug := v; empty := empty q; dbPath := dbPath q; batchSize := batchSize q;
     queue := queue q; length := length q; db := db q; opened := opened q;
     run := run q |}.

Definition set_empty (q : PersistentQueue) (v : option bool) : PersistentQueue :=
  {| debug := debug q; empty := v; dbPath := dbPath q; batchSize := batchSize q;
     queue := queue q; length := length q; db := db q; opened := opened q;
     run := run q |}.

Definition set_queue (q : PersistentQueue) (v : list (option Job)) : PersistentQueue :=
  {| debug := debug q; empty := empty q; dbPath := dbPath q; batchSize := batchSize q;
     queue := v; length := length q; db := db q; opened := opened q;
     run := run q |}.

Definition set_length (q : PersistentQueue) (v : option Z) : PersistentQueue :=
  {| debug := debug q; empty := empty q; dbPath := dbPath q; batchSize := batchSize q;
     queue := queue q; length := v; db := db q; opened := opened q;
     run := run q |}.

Definition set_db (q : PersistentQueue) (v : option database) : PersistentQueue :=
  {| debug := debug q; empty := empty q; dbPath := dbPath q; batchSize := batchSize q;
     queue := queue q; length := length q; db := v; opened := opened q;
     run := run q |}.

Definition set_opened (q : PersistentQueue) (v : bool) : PersistentQueue :=
  {| debug := debug q; empty := empty q; dbPath := dbPath q; batchSize := batchSize q;
     queue := queue q; length := length q; db := db q; opened := v;
     run := run q |}.

Definition set_run (q : PersistentQueue) (v : bool) : PersistentQueue :=
  {| debug := debug q; empty := empty q; dbPath := dbPath q; batchSize := batchSize q;
     queue := queue q; length := length q; db := db q; opened := opened q;
     run := v |}.

(** What listeners are told.  [EvNext] carries [this.queue[0]], which is
    [undefined] ([None]) when the window has no first entry; [EvAdd] carries
    the [id] field as the source computes it; [EvDelete] carries the [id]
    argument of [delete] as the caller gave it. *)
Inductive event : Type :=
| EvNext (j : option Job)
| EvEmpty
| EvAdd (i : jsval) (p : payload)
| EvDelete (i : option Z)
| EvOpen
| EvClose.

(** How a promise is settled; the first settlement wins. *)
Inductive settlement : Type :=
| Fulfil (v : jsval)
| Reject (e : jsval).

Definition settle (p : option settlement) (s : settlement) : option settlement :=
  match p with
  | Some _ => p
  | None => Some s
  end.

(** How a call ends, once the event loop is idle.  A process exit that
    the call leads to is what is recorded, also when the call had returned
    or its promise had been fulfilled before the exit.  [Uncaught e]: [e]
    is thrown inside a callback that sqlite3 calls, or is the reason of a
    rejected promise that has no handler; the promise the call returned is
    never settled, and Node ends the process with the error unless the host
    handles [uncaughtException] or [unhandledRejection] itself. *)
Inductive outcome : Type :=
| Returned (v : jsval)
| Threw (e : jsval)
| Fulfilled (v : jsval)
| Rejected (e : jsval)
| Pending
| ProcessExit
| Uncaught (e : jsval).

Definition outcome_of (p : option settlement) : outcome :=
  match p with
  | Some (Fulfil v) => Fulfilled v
  | Some (Reject e) => Rejected e
  | None => Pending
  end.

Record result : Type :=
  { st : PersistentQueue; evs : list event; out : outcome }.

(** *** Construction *)

(** [new PersistentQueue(filename, batchSize)]: [filename] is [None] when
    it is [undefined]; an omitted [batchSize] is [VUndefined]. *)
Definition construct (filename : option string) (size : jsval)
  : PersistentQueue + jsval :=
  match filename with
  | None => inr (Error "No filename parameter provided")
  | Some f =>
      let path := if String.eqb f "" then ":memory:"%string else f in
      let bs := match size with VUndefined => VNum 10 | _ => size end in
      if negb (String.eqb (typeof bs) "number") || less_than_one bs
      then inr (Error "Invalid batchSize parameter.  Must be a NUMBER > 0")
      else
        match bs with
        | VNum n =>
            inl {| debug := false; empty := None; dbPath := path; batchSize := n;
                   queue := []; length := None; db := None; opened := false;
                   run := false |}
        | _ => inr (Error "Invalid batchSize parameter.  Must be a NUMBER > 0")
        end
  end.

(** *** Helpers of the module *)

Definition parse_row (r : row) : option Job :=
  match parse (row_job r) with
  | Some p => Some {| id := js_number (row_id r); job := p |}
  | None => None
  end.

Definition parses (r : row) : bool :=
  match parse (row_job r) with
  | Some _ => true
  | None => false
  end.

(** [hydrateQueue(q, size)].  The statement is limited by [q.batchSize];
    the parameter [size] is not read.  Every row is mapped; a row that does
    not parse rejects the promise and leaves [undefined] in its place. *)
Definition hydrateQueue (q : PersistentQueue) (size : Z)
  : PersistentQueue * settlement :=
  match db q with
  | None => (q, Reject (VStr "Open queue database before starting queue"))
  | Some d =>
      let jobs := sql_select_batch d (batchSize q) in
      let q' := set_queue q (map parse_row jobs) in
      if forallb parses jobs
      then (q', Fulfil (VArr (map row_value jobs)))
      else (q', Reject SyntaxError)
  end.

(** How a helper that returns a promise ends: the promise is settled, or
    the callback it gave to sqlite3 throws before settling it. *)
Inductive completion : Type :=
| Settled (s : settlement)
| CallbackThrew (e : jsval).

(** [countQueue(q)].  The callback assigns [q.length] and then calls
    [resolve(this.length)].  Every function between that [this] and
    [countQueue] is an arrow function, and [countQueue] is called as a
    plain function: in strict code its [this] is [undefined] and reading
    [.length] throws inside the callback; in sloppy code it is the global
    object, which has no [length]. *)
Definition countQueue (q : PersistentQueue) : PersistentQueue * completion :=
  match db q with
  | None => (q, Settled (Reject (VStr "Open queue database before counting jobs")))
  | Some d =>
      let q' := set_length q (Some (sql_count d)) in
      if strict then (q', CallbackThrew (TypeError "length of undefined"))
      else (q', Settled (Fulfil VUndefined))
  end.

(** [searchQueue(q, job)]: the reason of the rejection, or the ids of the
    rows found, as the numbers JavaScript reads them. *)
Definition searchQueue (q : PersistentQueue) (p : payload) : jsval + list Z :=
  match db q with
  | None => inl (VStr "Open queue database before starting queue")
  | Some d => inr (map js_number (sql_search d (stringify p)))
  end.

(** The loop of [removeJob] for a given id: the first entry with that id
    is spliced out.  Reading [.id] of an [undefined] entry throws
    ([None]). *)
Fixpoint splice_id (i : Z) (w : list (option Job)) : option (list (option Job)) :=
  match w with
  | [] => Some []
  | None :: _ => None
  | Some j :: w' =>
      if id j =? i then Some w'
      else option_map (cons (Some j)) (splice_id i w')
  end.

Inductive removal : Type :=
| RemoveThrew (q : PersistentQueue) (e : jsval)
| RemoveSettled (q : PersistentQueue) (s : settlement).

(** The promise [removeJob] returns, once the id is known. *)
Definition removeJob_promise (q : PersistentQueue) (i : Z) : removal :=
  match db q with
  | None =>
      RemoveSettled q (Reject (VStr "Open queue database before starting queue"))
  | Some d =>
      let (d', stmt) := sql_delete d i in
      let q' := set_db q (Some d') in
      if changes stmt =? 0
      then RemoveSettled q'
             (Reject (VStr ("Job id " ++ show_Z i ++ " was not removed from queue")))
      else RemoveSettled q' (Fulfil (VNum i))
  end.

(** [removeJob(q, id)]; [None] is an [id] that is [undefined]. *)
Definition removeJob (q : PersistentQueue) (i : option Z) : removal :=
  match i with
  | None =>
      match queue q with
      | [] => RemoveThrew q (TypeError "id of undefined")
      | None :: w => RemoveThrew (set_queue q w) (TypeError "id of undefined")
      | Some j :: w => removeJob_promise (set_queue q w) (id j)
      end
  | Some i' =>
      match splice_id i' (queue q) with
      | None => RemoveThrew q (TypeError "id of undefined")
      | Some w => removeJob_promise (set_queue q w) i'
      end
  end.

(** *** The listeners installed by the constructor *)

Definition first_job (q : PersistentQueue) : option Job :=
  match queue q with
  | [] => None
  | j :: _ => j
  end.

(** [!this.run || this.empty] and the like: [undefined] is falsy. *)
Definition truthy (b : option bool) : bool :=
  match b with
  | Some true => true
  | _ => false
  end.

(** [this.length !== 0] *)
Definition length_not_zero (l : option Z) : bool :=
  match l with
  | Some n => negb (n =? 0)
  | None => true
  end.

(** [this.on('empty', ...)] *)
Definition on_empty (q : PersistentQueue) : result :=
  let q1 := set_empty q (Some true) in
  match db q1 with
  | None => {| st := q1; evs := [EvEmpty]; out := Threw (TypeError "exec of null") |}
  | Some d =>
      {| st := set_db q1 (Some (sql_vacuum d)); evs := [EvEmpty];
         out := Returned VUndefined |}
  end.

(** [this.on('trigger_next', ...)] *)
Definition trigger_next (q : PersistentQueue) : result :=
  if negb (run q) || truthy (empty q) then
    {| st := q; evs := []; out := Returned VUndefined |}
  else if (Nat.eqb (List.length (queue q)) 0) && length_not_zero (length q) then
    match hydrateQueue q (batchSize q) with
    | (q', Fulfil _) =>
        {| st := q'; evs := [EvNext (first_job q')]; out := Returned VUndefined |}
    | (q', Reject _) => {| st := q'; evs := []; out := ProcessExit |}
    end
  else if negb (Nat.eqb (List.length (queue q)) 0) then
    {| st := q; evs := [EvNext (first_job q)]; out := Returned VUndefined |}
  else on_empty q.

(** [this.on('start', ...)] *)
Definition on_start (q : PersistentQueue) : result :=
  match db q with
  | None =>
      {| st := q; evs := [];
         out := Threw (Error "Open queue database before starting queue") |}
  | Some _ =>
      if run q then {| st := q; evs := []; out := Returned VUndefined |}
      else trigger_next (set_run q true)
  end.

(** [this.on('stop', ...)] *)
Definition on_stop (q : PersistentQueue) : PersistentQueue := set_run q false.

(** [this.on('add', ...)] *)
Definition on_add (q : PersistentQueue) : result :=
  if truthy (empty q) then
    let q1 := set_empty q (Some false) in
    if run q1 then trigger_next q1
    else {| st := q1; evs := []; out := Returned VUndefined |}
  else {| st := q; evs := []; out := Returned VUndefined |}.

(** [this.on('open', ...)] *)
Definition on_open (q : PersistentQueue) : PersistentQueue := set_opened q true.

(** [this.on('close', ...)] *)
Definition on_close (q : PersistentQueue) : PersistentQueue :=
  set_queue (set_run (set_empty (set_db (set_opened q false) None) None) false) [].

(** *** The public operations *)

Definition js_incr (l : option Z) : option Z :=
  Some (match l with Some n => n | None => 0 end + 1).

Definition js_decr (l : option Z) : option Z :=
  Some (match l with Some n => n | None => 0 end - 1).

(** [open()], on the file whose content is [disk].  When the callback of
    [countQueue] throws, the chain of [open] stops there: [hydrateQueue] is
    not called and ['open'] is not emitted. *)
Definition open (disk : database) (q : PersistentQueue) : result :=
  let q1 := set_db q (Some (sql_schema disk)) in
  match countQueue q1 with
  | (q2, CallbackThrew e) => {| st := q2; evs := []; out := Uncaught e |}
  | (q2, Settled (Reject e)) => {| st := q2; evs := []; out := Rejected e |}
  | (q2, Settled (Fulfil _)) =>
      match hydrateQueue q2 (batchSize q2) with
      | (q3, Reject e) => {| st := q3; evs := []; out := Rejected e |}
      | (q3, Fulfil jobs) =>
          let q4 := set_empty q3 (Some (Nat.eqb (List.length (queue q3)) 0)) in
          {| st := on_open q4; evs := [EvOpen]; out := Fulfilled jobs |}
      end
  end.

(** [close()] *)
Definition close (q : PersistentQueue) : result :=
  match db q with
  | None => {| st := q; evs := []; out := Rejected (TypeError "close of null") |}
  | Some _ => {| st := on_close q; evs := [EvClose]; out := Fulfilled VUndefined |}
  end.

(** [getLength()] *)
Definition getLength (q : PersistentQueue) : jsval :=
  match length q with
  | Some n => VNum n
  | None => VNull
  end.

(** [start()], [stop()], [abort()] *)
Definition start (q : PersistentQueue) : result := on_start q.

Definition stop (q : PersistentQueue) : result :=
  {| st := on_stop q; evs := []; out := Returned VUndefined |}.

Definition abort (q : PersistentQueue) : result := stop q.

(** [done(id)].  An exception of [removeJob] leaves [done] as it is; a
    rejection, or an exception inside the reaction, ends the process. *)
Definition done (q : PersistentQueue) (i : option Z) : result :=
  match removeJob q i with
  | RemoveThrew q' e => {| st := q'; evs := []; out := Threw e |}
  | RemoveSettled q' (Reject _) => {| st := q'; evs := []; out := ProcessExit |}
  | RemoveSettled q' (Fulfil _) =>
      let r := trigger_next (set_length q' (js_decr (length q'))) in
      match out r with
      | Returned _ => r
      | _ => {| st := st r; evs := evs r; out := ProcessExit |}
      end
  end.

(** Inside the arrow callbacks of [add], [this] is the queue object and not
    the sqlite3 statement: [this.lastID] and [this.id] read properties that
    no code of the module ever defines on a queue. *)
Definition this_lastID (q : PersistentQueue) : jsval := VUndefined.
Definition this_id (q : PersistentQueue) : jsval := VUndefined.

(** [add(job)].  An exception inside the sqlite3 callback is uncaught. *)
Definition add (q : PersistentQueue) (p : payload) : result :=
  match db q with
  | None => {| st := q; evs := []; out := Rejected (TypeError "run of null") |}
  | Some d =>
      let (d', stmt) := sql_insert d (stringify p) in
      let q1 := set_db q (Some d') in
      let q2 := set_length q1 (js_incr (length q1)) in
      let ev := EvAdd (this_lastID q2) p in
      let r := on_add q2 in
      match out r with
      | Returned _ =>
          {| st := st r; evs := ev :: evs r; out := Fulfilled (this_id (st r)) |}
      | _ => {| st := st r; evs := ev :: evs r; out := ProcessExit |}
      end
  end.

(** [setDebug(debug)] *)
Definition setDebug (q : PersistentQueue) (v : bool) : PersistentQueue :=
  set_debug q v.

(** [isEmpty()], [isStarted()], [isOpen()] *)
Definition isEmpty (q : PersistentQueue) : outcome :=
  match empty q with
  | None => Threw (Error "Call open() method before calling isEmpty()")
  | Some b => Returned (VBool b)
  end.

Definition isStarted (q : PersistentQueue) : bool := run q.
Definition isOpen (q : PersistentQueue) : bool := opened q.

(** The loop of [has] over the window: [hit] is called for every entry with
    the id; reading [.id] of an [undefined] entry throws out of the
    executor, which rejects the promise unless it is settled. *)
Fixpoint has_window (i : Z) (w : list (option Job)) (hit : settlement)
  (p : option settlement) : option settlement * bool :=
  match w with
  | [] => (p, false)
  | None :: _ => (settle p (Reject (TypeError "id of undefined")), true)
  | Some j :: w' =>
      has_window i w' hit (if id j =? i then settle p hit else p)
  end.

(** [has(id)].  The executor names its parameters [(reject, resolve)]: the
    first parameter of an executor fulfils the promise and the second
    rejects it, whatever they are called. *)
Definition has (q : PersistentQueue) (i : Z) : result :=
  let reject := Fulfil in
  let resolve := Reject in
  let (p, threw) := has_window i (queue q) (resolve (VBool true)) None in
  let p' :=
    if threw then p
    else
      match db q with
      | None => settle p (Reject (TypeError "get of null"))
      | Some d =>
          (* [err] is [null]: [reject(err)] is not called *)
          settle p (resolve (VBool (match sql_get_id d i with
                                    | Some _ => true
                                    | None => false
                                    end)))
      end in
  {| st := q; evs := []; out := outcome_of p' |}.

(** [getJobIds(job)] *)
Definition getJobIds (q : PersistentQueue) (p : payload) : result :=
  match searchQueue q p with
  | inl e => {| st := q; evs := []; out := Rejected e |}
  | inr ids => {| st := q; evs := []; out := Fulfilled (VArr (map VNum ids)) |}
  end.

(** [this.queue.findIndex(j => JSON.stringify(j.job) === jobstr)]:
    [inl] when reading [.job] of an [undefined] entry throws. *)
Fixpoint find_in_window (jobstr : string) (w : list (option Job)) : unit + option Job :=
  match w with
  | [] => inr None
  | None :: _ => inl tt
  | Some j :: w' =>
      if String.eqb (stringify (job j)) jobstr then inr (Some j)
      else find_in_window jobstr w'
  end.

(** [data === []]: the array literal is a new object, and no value is
    identical to a new object. *)
Definition identical_to_new_array (data : list Z) : bool := false.

Definition first_id (data : list Z) : jsval :=
  match data with
  | [] => VUndefined
  | i :: _ => VNum i
  end.

(** [getFirstJobId(job)].  The promise of [searchQueue] is followed by
    [then] alone: when it rejects, the promise [then] made is rejected and
    has no handler, and the promise [getFirstJobId] returned is never
    settled. *)
Definition getFirstJobId (q : PersistentQueue) (p : payload) : result :=
  let jobstr := stringify p in
  match find_in_window jobstr (queue q) with
  | inl _ => {| st := q; evs := []; out := Rejected (TypeError "job of undefined") |}
  | inr (Some j) => {| st := q; evs := []; out := Fulfilled (VNum (id j)) |}
  | inr None =>
      match searchQueue q p with
      | inl e => {| st := q; evs := []; out := Uncaught e |}
      | inr data =>
          if identical_to_new_array data
          then {| st := q; evs := []; out := Fulfilled VNull |}
          else {| st := q; evs := []; out := Fulfilled (first_id data) |}
      end
  end.

Definition id_value (i : option Z) : jsval :=
  match i with
  | Some n => VNum n
  | None => VUndefined
  end.

(** [delete(id)].  [removeJob] runs inside the executor of the promise
    [delete] returns: an exception there rejects that promise. *)
Definition delete (q : PersistentQueue) (i : option Z) : result :=
  match removeJob q i with
  | RemoveThrew q' e => {| st := q'; evs := []; out := Rejected e |}
  | RemoveSettled q' (Reject e) => {| st := q'; evs := []; out := Rejected e |}
  | RemoveSettled q' (Fulfil _) =>
      {| st := set_length q' (js_decr (length q')); evs := [EvDelete i];
         out := Fulfilled (id_value i) |}
  end.

(** ** Sequences of operations *)

Inductive op : Type :=
| Add (p : payload)
| Done (i : option Z)
| Delete (i : option Z)
| Start
| Stop.

Definition exec (q : PersistentQueue) (o : op) : result :=
  match o with
  | Add p => add q p
  | Done i => done q i
  | Delete i => delete q i
  | Start => start q
  | Stop => stop q
  end.

Definition exited (r : result) : bool :=
  match out r with
  | ProcessExit => true
  | _ => false
  end.

Definition succeeded (r : result) : bool :=
  match out r with
  | Returned _ | Fulfilled _ => true
  | _ => false
  end.

(** What a caller that issues [ops] one after the other ends with: the
    object, everything emitted, and whether the process is still there.  A
    call that throws or whose promise is rejected leaves the caller free to
    go on; a process exit does not. *)
Record history : Type :=
  { final : PersistentQueue; seen : list event; alive : bool }.

Fixpoint run_ops (q : PersistentQueue) (ops : list op) : history :=
  match ops with
  | [] => {| final := q; seen := []; alive := true |}
  | o :: rest =>
      let r := exec q o in
      if exited r then {| final := st r; seen := evs r; alive := false |}
      else
        let h := run_ops (st r) rest in
        {| final := final h; seen := evs r ++ seen h; alive := alive h |}
  end.

(** The same, when every call has to succeed. *)
Fixpoint run_all (q : PersistentQueue) (ops : list op)
  : option (PersistentQueue * list event) :=
  match ops with
  | [] => Some (q, [])
  | o :: rest =>
      let r := exec q o in
      if succeeded r then
        match run_all (st r) rest with
        | Some (q', es) => Some (q', evs r ++ es)
        | None => None
        end
      else None
  end.

(** The ids of the jobs told through [next], in the order they were told. *)
Fixpoint next_ids (es : list event) : list Z :=
  match es with
  | [] => []
  | EvNext (Some j) :: es' => id j :: next_ids es'
  | _ :: es' => next_ids es'
  end.

Definition next_undefined (e : event) : bool :=
  match e with
  | EvNext None => true
  | _ => false
  end.




(** The id the row of an [add] is given is one JavaScript holds exactly. *)
Definition fits_number (q : PersistentQueue) (o : op) : bool :=
  match o, db q with
  | Add _, Some d => next_rowid d <=? max_safe_integer
  | _, _ => true
  end.

(** The same for every [add] of [ops], issued from [q] on. *)
Fixpoint fits_number_run (q : PersistentQueue) (ops : list op) : bool :=
  match ops with
  | [] => true
  | o :: rest =>
      fits_number q o
      && (exited (exec q o) || fits_number_run (st (exec q o)) rest)
  end.

(** ** Queues to start from *)

(** The object the constructor returns for the file [jobs.db] and a batch
    size that is a number not below 1. *)
Definition fresh (size : Z) : PersistentQueue :=
  {| debug := false; empty := None; dbPath := "jobs.db"; batchSize := size;
     queue := []; length := None; db := None; opened := false; run := false |}.

(** The object after [open()] on the file [disk]. *)
Definition opened_on (disk : database) (size : Z) : PersistentQueue :=
  st (open disk (fresh size)).

(** ** Invariants and measures used by the properties *)

Unset Implicit Arguments.

Local Abbreviation PQ := PersistentQueue.

(** What an operation adds to the count when it succeeds. *)
Definition net (o : op) : Z :=
  match o with
  | Add _ => 1
  | Done _ | Delete _ => -1
  | Start | Stop => 0
  end.

(** [done] and [delete] calls; [start] and [stop] calls. *)
Definition is_removal (o : op) : bool :=
  match o with
  | Done _ | Delete _ => true
  | _ => false
  end.

Definition is_lifecycle (o : op) : bool :=
  match o with
  | Start | Stop => true
  | _ => false
  end.

Fixpoint total_net (ops : list op) : Z :=
  match ops with
  | [] => 0
  | o :: rest => net o + total_net rest
  end.

(** The object holds an open database whose ids are distinct (the primary
    key), the count is the number of rows, and the batch size is at
    least 1. *)
Record counted (q : PQ) (d : database) : Prop :=
  { co_db : db q = Some d;
    co_key : NoDup (map row_id (rows d));
    co_count : length q = Some (Z.of_nat (List.length (rows d)));
    co_size : 1 <= batchSize q }.

(** Moreover [empty] is true only when the table has no row. *)
Definition coherent (q : PQ) (d : database) : Prop :=
  counted q d /\ (empty q = Some true -> rows d = []).

(** The object inside the callback of [add], once the row is inserted and
    [length] incremented, before the ['add'] event. *)
Definition inserted (q : PQ) (d : database) (p : payload) : PQ :=
  set_length (set_db q (Some (fst (sql_insert d (stringify p)))))
    (js_incr (length q)).

(** Every id of the table is one JavaScript holds exactly. *)
Definition safe_store (d : database) : Prop :=
  forall r, In r (rows d) -> safe_id (row_id r).

(** The window holds the first rows of the table in id order, all parsed;
    no id of the table is above the AUTOINCREMENT sequence, and JavaScript
    holds every id exactly. *)
Record windowed (q : PQ) (d : database) (wrows rest : list row) : Prop :=
  { w_coherent : coherent q d;
    w_seq : forall r, In r (rows d) -> row_id r <= seq d;
    w_split : order_by_id (rows d) = wrows ++ rest;
    w_queue : queue q = map parse_row wrows;
    w_parses : forallb parses wrows = true;
    w_safe : safe_store d }.

(** No stored job has an id below (strictly: at or below) an id of [es]. *)
Definition below (es : list Z) (d : database) : Prop :=
  forall e r, In e es -> In r (rows d) -> e <= row_id r.

Definition strictly_below (es : list Z) (d : database) : Prop :=
  forall e r, In e es -> In r (rows d) -> e < row_id r.

(** The ids told so far: ascending, all handed out by the sequence, and
    none while the queue was never started. *)
Record told (q : PQ) (es : list Z) (d : database) : Prop :=
  { t_ascending : ascending es;
    t_seq : forall e, In e es -> e <= seq d;
    t_run : run q = false -> es = [] }.

(** Between two operations: no stored job is below a job already told,
    and once the window is empty every stored job is above them. *)
Definition fifo_inv (q : PQ) (es : list Z) : Prop :=
  exists d wrows rest,
    windowed q d wrows rest /\ told q es d /\ below es d
    /\ (wrows = [] -> strictly_below es d).

(** When the trigger runs: every stored job is above the jobs told. *)
Definition fifo_pre (q : PQ) (es : list Z) : Prop :=
  exists d wrows rest,
    windowed q d wrows rest /\ told q es d /\ strictly_below es d.

(** What one operation keeps, [es] being the ids told before it: every
    [next] carries a job, the ids told stay ascending, and unless the
    process exited the invariant holds again. *)
Definition step_ok (es : list Z) (r : result) : Prop :=
  existsb next_undefined (evs r) = false
  /\ ascending (es ++ next_ids (evs r))
  /\ (exited r = false -> fifo_inv (st r) (es ++ next_ids (evs r))).

(** The row an [add] of [p] inserts. *)
Definition new_row (d : database) (p : payload) : row :=
  {| row_id := next_rowid d; row_job := stringify p |}.

(** The object once [removeJob] has taken [i] out of the window and sent
    the DELETE. *)
Definition deleted (q : PQ) (d : database) (wrows : list row) (i : Z) : PQ :=
  set_db (set_queue q (map parse_row (filter (keeps i) wrows)))
    (Some (fst (sql_delete d i))).

(** How the promise of [removeJob] settles for the id [i]. *)
Definition delete_settles (d : database) (i : Z) : settlement :=
  match filter (has_id i) (rows d) with
  | [] => Reject (VStr ("Job id " ++ show_Z i ++ " was not removed from queue"))
  | _ :: _ => Fulfil (VNum i)
  end.

(** ** Further operations and notions for the properties beyond the claims *)

(** [getSqlite3()] *)
Definition getSqlite3 (q : PQ) : database + jsval :=
  match db q with
  | None => inr (Error "Call open() method before calling getSqlite3()")
  | Some d => inl d
  end.

Definition is_start (o : op) : bool :=
  match o with
  | Start => true
  | _ => false
  end.

(** A [next] or an [empty] notification. *)
Definition is_consumption (e : event) : bool :=
  match e with
  | EvNext _ | EvEmpty => true
  | _ => false
  end.

(** The states a caller can be in: a queue whose batch size is an
    integer not below 1, then a fulfilled [open()] on a store whose ids are
    distinct, not above the AUTOINCREMENT sequence and not beyond
    [Number.MAX_SAFE_INTEGER], then any operations in which no [add] is
    given an id beyond [Number.MAX_SAFE_INTEGER], the process being alive.
    ([open()] is fulfilled in sloppy code only.) *)
Definition reachable (q : PQ) : Prop :=
  exists q0 disk v ops,
    1 <= batchSize q0
    /\ NoDup (map row_id (rows disk))
    /\ (forall r, In r (rows disk) -> row_id r <= seq disk)
    /\ safe_store disk
    /\ out (open disk q0) = Fulfilled v
    /\ fits_number_run (st (open disk q0)) ops = true
    /\ alive (run_ops (st (open disk q0)) ops) = true
    /\ q = final (run_ops (st (open disk q0)) ops).

(** What a later [open()] finds at the path of [q], [d] being what the
    database held when it was closed: a file keeps it, the in-memory
    database is gone with the connection. *)
Definition left_at_path (q : PQ) (d : database) : database :=
  if String.eqb (dbPath q) ":memory:" then empty_disk else d.

(** The batch size is [n], a number not below 0, and the window holds at
    most [n] entries. *)
Definition window_fits (n : Z) (q : PQ) : Prop :=
  batchSize q = n /\ 0 <= n /\ Z.of_nat (List.length (queue q)) <= n.

(** The counter row says how many rows the job table has. *)
Definition tallied (d : database) : Prop :=
  counter d = Z.of_nat (List.length (rows d)).


(** * Properties *)

(** ** Facts about the job table *)

Lemma insert_by_id_perm (r : row) (l : list row) :
  Permutation (insert_by_id r l) (r :: l).
Proof.
  induction l as [|x l IH]; simpl.
  - apply Permutation_refl.
  - destruct (row_id r <=? row_id x).
    + apply Permutation_refl.
    + apply perm_trans with (x :: r :: l).
      * apply perm_skip, IH.
      * apply perm_swap.
Qed.

Lemma order_by_id_perm (l : list row) : Permutation (order_by_id l) l.
Proof.
  induction l as [|x l IH]; simpl.
  - apply perm_nil.
  - apply perm_trans with (x :: order_by_id l).
    + apply insert_by_id_perm.
    + apply perm_skip, IH.
Qed.

Lemma order_by_id_In (l : list row) (r : row) :
  In r (order_by_id l) <-> In r l.
Proof.
  split; apply Permutation_in.
  - apply order_by_id_perm.
  - apply Permutation_sym, order_by_id_perm.
Qed.

Lemma order_by_id_length (l : list row) :
  List.length (order_by_id l) = List.length l.
Proof. apply Permutation_length, order_by_id_perm. Qed.

Lemma insert_by_id_sorted (r : row) (l : list row) :
  StronglySorted id_le l -> StronglySorted id_le (insert_by_id r l).
Proof.
  induction 1 as [|x l Hs IH Hx]; simpl.
  - constructor; constructor.
  - destruct (row_id r <=? row_id x) eqn:E.
    + apply Z.leb_le in E.
      constructor.
      * constructor; assumption.
      * constructor; [exact E|].
        eapply Forall_impl; [|exact Hx].
        intros y Hy. unfold id_le in *. lia.
    + apply Z.leb_gt in E.
      constructor; [exact IH|].
      rewrite Forall_forall in *.
      intros y Hy.
      apply (Permutation_in _ (insert_by_id_perm r l)) in Hy.
      destruct Hy as [<-|Hy].
      * unfold id_le. lia.
      * apply Hx, Hy.
Qed.

Lemma order_by_id_sorted (l : list row) : StronglySorted id_le (order_by_id l).
Proof.
  induction l as [|x l IH]; simpl.
  - constructor.
  - apply insert_by_id_sorted, IH.
Qed.

Lemma sorted_nodup_strict (l : list row) :
  StronglySorted id_le l -> NoDup (map row_id l) -> StronglySorted id_lt l.
Proof.
  induction 1 as [|x l Hs IH Hx]; simpl; intros Hn.
  - constructor.
  - inversion Hn as [|? ? Hnot Hn']; subst.
    constructor; [apply IH, Hn'|].
    rewrite Forall_forall in *.
    intros y Hy.
    specialize (Hx y Hy). unfold id_le, id_lt in *.
    assert (row_id x <> row_id y).
    { intros E. apply Hnot. rewrite E. apply in_map, Hy. }
    lia.
Qed.

Lemma order_by_id_nodup (l : list row) :
  NoDup (map row_id l) -> NoDup (map row_id (order_by_id l)).
Proof.
  apply Permutation_NoDup, Permutation_map, Permutation_sym, order_by_id_perm.
Qed.

Lemma order_by_id_strict (l : list row) :
  NoDup (map row_id l) -> StronglySorted id_lt (order_by_id l).
Proof.
  intros Hn. apply sorted_nodup_strict.
  - apply order_by_id_sorted.
  - apply order_by_id_nodup, Hn.
Qed.

Lemma limit_prefix (n : Z) (l : list row) :
  exists rest, l = limit n l ++ rest.
Proof.
  unfold limit. destruct (n <? 0).
  - exists []. symmetry. apply app_nil_r.
  - exists (skipn (Z.to_nat n) l). symmetry. apply firstn_skipn.
Qed.

Lemma limit_length (n : Z) (l : list row) :
  0 <= n -> Z.of_nat (List.length (limit n l)) <= n.
Proof.
  intros Hn. unfold limit.
  destruct (n <? 0) eqn:E.
  - apply Z.ltb_lt in E. lia.
  - pose proof (firstn_le_length (Z.to_nat n) l). lia.
Qed.

Lemma limit_nonempty (n : Z) (l : list row) :
  1 <= n -> l <> [] -> limit n l <> [].
Proof.
  intros Hn Hl. unfold limit.
  destruct (n <? 0); [exact Hl|].
  destruct l as [|x l]; [contradiction|].
  destruct (Z.to_nat n) eqn:E; [lia|].
  simpl. discriminate.
Qed.


Lemma filter_has_keeps_length (i : Z) (l : list row) :
  (List.length (filter (has_id i) l) + List.length (filter (keeps i) l)
   = List.length l)%nat.
Proof.
  induction l as [|x l IH]; simpl; [reflexivity|].
  unfold keeps at 1. destruct (has_id i x); simpl; lia.
Qed.

Lemma has_id_absent (i : Z) (l : list row) :
  ~ In i (map row_id l) -> filter (has_id i) l = [].
Proof.
  induction l as [|x l IH]; simpl; intros Hn; [reflexivity|].
  unfold has_id at 1.
  destruct (row_id x =? i) eqn:E.
  - apply Z.eqb_eq in E. exfalso. apply Hn. left. exact E.
  - apply IH. intros H. apply Hn. right. exact H.
Qed.

Lemma keeps_absent (i : Z) (l : list row) :
  ~ In i (map row_id l) -> filter (keeps i) l = l.
Proof.
  induction l as [|x l IH]; simpl; intros Hn; [reflexivity|].
  unfold keeps at 1, has_id.
  destruct (row_id x =? i) eqn:E; simpl.
  - apply Z.eqb_eq in E. exfalso. apply Hn. left. exact E.
  - f_equal. apply IH. intros H. apply Hn. right. exact H.
Qed.

Lemma has_id_present (i : Z) (l : list row) :
  NoDup (map row_id l) -> In i (map row_id l) ->
  List.length (filter (has_id i) l) = 1%nat.
Proof.
  induction l as [|x l IH]; simpl; intros Hn Hi; [contradiction|].
  inversion Hn as [|? ? Hx Hn']; subst.
  unfold has_id at 1.
  destruct (row_id x =? i) eqn:E.
  - apply Z.eqb_eq in E. subst i.
    rewrite (has_id_absent _ _ Hx). reflexivity.
  - apply Z.eqb_neq in E. destruct Hi as [Hi|Hi]; [contradiction|].
    apply IH; assumption.
Qed.

Lemma has_id_some (i : Z) (l : list row) :
  filter (has_id i) l <> [] -> In i (map row_id l).
Proof.
  intros H.
  destruct (in_dec Z.eq_dec i (map row_id l)) as [Hi|Hi]; [exact Hi|].
  elim H. apply has_id_absent, Hi.
Qed.

Lemma filter_ids_incl (f : row -> bool) (l : list row) (i : Z) :
  In i (map row_id (filter f l)) -> In i (map row_id l).
Proof.
  rewrite !in_map_iff. intros (r & Hr & Hin).
  exists r. split; [exact Hr|]. apply filter_In in Hin. apply Hin.
Qed.

Lemma filter_nodup_ids (f : row -> bool) (l : list row) :
  NoDup (map row_id l) -> NoDup (map row_id (filter f l)).
Proof.
  induction l as [|x l IH]; simpl; intros Hn; [constructor|].
  inversion Hn as [|? ? Hx Hn']; subst.
  destruct (f x); simpl.
  - constructor; [|apply IH, Hn'].
    intros H. apply Hx. eapply filter_ids_incl, H.
  - apply IH, Hn'.
Qed.

Lemma max_rowid_ge (l : list row) (r : row) :
  In r l -> row_id r <= max_rowid l.
Proof.
  induction l as [|x l IH]; simpl; intros H; [contradiction|].
  destruct H as [<-|H]; [lia|].
  specialize (IH H). lia.
Qed.

Lemma next_rowid_fresh (d : database) (r : row) :
  In r (rows d) -> row_id r < next_rowid d.
Proof.
  intros H. apply max_rowid_ge in H. unfold next_rowid. lia.
Qed.

Lemma insert_nodup_ids (d : database) (text : string) :
  NoDup (map row_id (rows d)) ->
  NoDup (map row_id (rows (fst (sql_insert d text)))).
Proof.
  intros Hn. simpl. rewrite map_app. simpl.
  apply NoDup_app; [exact Hn|constructor; [intros []|constructor]|].
  intros i Hi [<-|[]].
  apply in_map_iff in Hi. destruct Hi as (r & Hr & Hin).
  apply next_rowid_fresh in Hin. lia.
Qed.

Lemma insert_by_id_first (r : row) (l : list row) :
  Forall (id_le r) l -> insert_by_id r l = r :: l.
Proof.
  intros H. destruct l as [|x l]; simpl; [reflexivity|].
  inversion H as [|? ? Hx _]; subst. unfold id_le in Hx.
  apply Z.leb_le in Hx. rewrite Hx. reflexivity.
Qed.

Lemma insert_by_id_last (r x : row) (l : list row) :
  row_id r <= row_id x ->
  insert_by_id r (l ++ [x]) = insert_by_id r l ++ [x].
Proof.
  intros Hx. induction l as [|y l IH]; simpl.
  - apply Z.leb_le in Hx. rewrite Hx. reflexivity.
  - destruct (row_id r <=? row_id y); [reflexivity|].
    rewrite IH. reflexivity.
Qed.

(** A row whose id is above all others goes last in id order. *)
Lemma order_by_id_snoc (l : list row) (x : row) :
  (forall r, In r l -> row_id r <= row_id x) ->
  order_by_id (l ++ [x]) = order_by_id l ++ [x].
Proof.
  induction l as [|y l IH]; simpl; intros H; [reflexivity|].
  rewrite IH by (intros r Hr; apply H; right; exact Hr).
  apply insert_by_id_last. apply H. left. reflexivity.
Qed.

Lemma filter_insert_by_id (f : row -> bool) (r : row) (l : list row) :
  StronglySorted id_le l ->
  filter f (insert_by_id r l) =
    if f r then insert_by_id r (filter f l) else filter f l.
Proof.
  induction 1 as [|x l Hs IH Hx]; simpl.
  - destruct (f r); reflexivity.
  - destruct (row_id r <=? row_id x) eqn:E; simpl.
    + apply Z.leb_le in E.
      destruct (f r) eqn:Er; [|reflexivity].
      symmetry. apply insert_by_id_first.
      assert (Hall : Forall (id_le r) (x :: l)).
      { constructor; [exact E|].
        eapply Forall_impl; [|exact Hx]. unfold id_le. intros; lia. }
      change (Forall (id_le r) (filter f (x :: l))).
      rewrite Forall_forall in *. intros y Hy.
      apply Hall. apply filter_In in Hy. apply Hy.
    + destruct (f x) eqn:Ex; rewrite IH; destruct (f r); simpl;
        try rewrite E; reflexivity.
Qed.

(** Deleting rows and ordering by id commute. *)
Lemma order_by_id_filter (f : row -> bool) (l : list row) :
  order_by_id (filter f l) = filter f (order_by_id l).
Proof.
  induction l as [|x l IH]; simpl; [reflexivity|].
  rewrite filter_insert_by_id by apply order_by_id_sorted.
  destruct (f x); simpl; rewrite IH; reflexivity.
Qed.

Lemma sorted_head_least (x : row) (l : list row) (r : row) :
  StronglySorted id_le (x :: l) -> In r (x :: l) -> row_id x <= row_id r.
Proof.
  intros Hs [<-|Hr]; [lia|].
  inversion Hs as [|? ? _ Hx]; subst.
  rewrite Forall_forall in Hx. apply Hx, Hr.
Qed.

Lemma ascending_snoc (es : list Z) (x : Z) :
  ascending es -> (forall e, In e es -> e < x) -> ascending (es ++ [x]).
Proof.
  unfold ascending. induction 1 as [|e es Hs IH He]; simpl; intros Hx.
  - constructor; constructor.
  - constructor.
    + apply IH. intros e' H'. apply Hx. right. exact H'.
    + rewrite Forall_forall in *. intros y Hy.
      apply in_app_or in Hy. destruct Hy as [Hy|[<-|[]]].
      * apply He, Hy.
      * apply Hx. left. reflexivity.
Qed.

(** ** The operations, one at a time *)

Lemma length_zero_test (l : option Z) :
  length_not_zero l = false <-> l = Some 0.
Proof.
  destruct l as [n|]; simpl.
  - rewrite negb_false_iff, Z.eqb_eq. split; congruence.
  - split; discriminate.
Qed.

Lemma truthy_spec (b : option bool) : truthy b = true <-> b = Some true.
Proof.
  destruct b as [[|]|]; simpl; split; congruence.
Qed.


Lemma trigger_next_noop (q : PQ) :
  negb (run q) || truthy (empty q) = true ->
  trigger_next q = {| st := q; evs := []; out := Returned VUndefined |}.
Proof.
  intros H. unfold trigger_next. rewrite H. reflexivity.
Qed.

Lemma trigger_next_hydrate (q : PQ) (d : database) :
  run q = true -> truthy (empty q) = false -> queue q = [] ->
  length_not_zero (length q) = true -> db q = Some d ->
  trigger_next q =
    if forallb parses (sql_select_batch d (batchSize q))
    then {| st := set_queue q (map parse_row (sql_select_batch d (batchSize q)));
            evs := [EvNext (hd None (map parse_row
                                       (sql_select_batch d (batchSize q))))];
            out := Returned VUndefined |}
    else {| st := set_queue q (map parse_row (sql_select_batch d (batchSize q)));
            evs := []; out := ProcessExit |}.
Proof.
  intros Hr He Hq Hl Hd. unfold trigger_next, hydrateQueue.
  rewrite Hr, He, Hq, Hl, Hd. simpl.
  destruct (forallb parses (sql_select_batch d (batchSize q)));
    [|reflexivity].
  unfold first_job. simpl.
  destruct (map parse_row (sql_select_batch d (batchSize q)));
    reflexivity.
Qed.

Lemma trigger_next_head (q : PQ) (j : option Job)
  (w : list (option Job)) :
  run q = true -> truthy (empty q) = false -> queue q = j :: w ->
  trigger_next q =
    {| st := q; evs := [EvNext j]; out := Returned VUndefined |}.
Proof.
  intros Hr He Hq. unfold trigger_next, first_job.
  rewrite Hr, He, Hq. reflexivity.
Qed.

Lemma trigger_next_empty (q : PQ) (d : database) :
  run q = true -> truthy (empty q) = false -> queue q = [] ->
  length_not_zero (length q) = false -> db q = Some d ->
  trigger_next q =
    {| st := set_db (set_empty q (Some true)) (Some (sql_vacuum d));
       evs := [EvEmpty]; out := Returned VUndefined |}.
Proof.
  intros Hr He Hq Hl Hd. unfold trigger_next, on_empty.
  rewrite Hr, He, Hq, Hl. simpl. rewrite Hd. reflexivity.
Qed.


(** C8, as the code has it: [close()] empties the window, makes [empty]
    undefined again and sets [run] (and [opened]) to false and [db] to
    null; the count keeps the value it had. *)
Theorem close_resets_all_but_count (q : PQ) (d : database) :
  db q = Some d ->
  out (close q) = Fulfilled VUndefined
  /\ evs (close q) = [EvClose]
  /\ queue (st (close q)) = []
  /\ empty (st (close q)) = None
  /\ run (st (close q)) = false
  /\ opened (st (close q)) = false
  /\ db (st (close q)) = None
  /\ getLength (st (close q)) = getLength q.
Proof.
  intros Hd. unfold close. rewrite Hd. simpl. repeat split.
Qed.

(** C9: the constructor throws when the filename is undefined, when a
    batch size is given that is not a number, and when it is a number
    below 1; an omitted batch size becomes 10, and the empty filename
    selects the in-memory store. *)
Theorem construct_validates_arguments :
  (forall size,
     construct None size = inr (Error "No filename parameter provided"))
  /\
  (forall f size,
     size <> VUndefined -> typeof size <> "number"%string ->
     construct (Some f) size =
       inr (Error "Invalid batchSize parameter.  Must be a NUMBER > 0"))
  /\
  (forall f n,
     n < 1 ->
     construct (Some f) (VNum n) =
       inr (Error "Invalid batchSize parameter.  Must be a NUMBER > 0"))
  /\
  (forall f,
     exists q, construct (Some f) VUndefined = inl q /\ batchSize q = 10)
  /\
  (forall size n,
     (size = VUndefined /\ n = 10) \/ (size = VNum n /\ 1 <= n) ->
     exists q,
       construct (Some ""%string) size = inl q
       /\ dbPath q = ":memory:"%string /\ batchSize q = n).
Proof.
  split; [reflexivity|].
  split.
  { intros f size Hu Ht. unfold construct.
    destruct size; simpl in *; try reflexivity; congruence. }
  split.
  { intros f n Hn. unfold construct. simpl.
    apply Z.ltb_lt in Hn. rewrite Hn. reflexivity. }
  split.
  { intros f. eexists. split; reflexivity. }
  intros size n [[-> ->]|[-> Hn]].
  - eexists. repeat split.
  - unfold construct. simpl.
    assert (E : (n <? 1) = false) by (apply Z.ltb_ge; lia).
    rewrite E. eexists. repeat split.
Qed.

(** C10, as the code has it: with the id omitted and the window empty,
    [done] throws a TypeError out of the call, and [delete] returns a
    promise rejected with that TypeError; neither touches the store, the
    object or the listeners. *)
Theorem removal_without_id_on_empty_window (q : PQ) :
  queue q = [] ->
  done q None =
    {| st := q; evs := []; out := Threw (TypeError "id of undefined") |}
  /\
  delete q None =
    {| st := q; evs := []; out := Rejected (TypeError "id of undefined") |}.
Proof.
  intros Hq. unfold done, delete, removeJob. rewrite Hq. split; reflexivity.
Qed.

(** ** The count *)

Lemma hydrateQueue_frame (q : PQ) (size : Z) :
  length (fst (hydrateQueue q size)) = length q
  /\ db (fst (hydrateQueue q size)) = db q
  /\ empty (fst (hydrateQueue q size)) = empty q
  /\ run (fst (hydrateQueue q size)) = run q
  /\ batchSize (fst (hydrateQueue q size)) = batchSize q.
Proof.
  unfold hydrateQueue. destruct (db q) as [d|] eqn:Hd; simpl.
  - destruct (forallb parses (sql_select_batch d (batchSize q)));
      simpl; rewrite ?Hd; repeat split.
  - rewrite Hd. repeat split.
Qed.

Lemma trigger_next_length (q : PQ) :
  length (st (trigger_next q)) = length q.
Proof.
  unfold trigger_next.
  destruct (negb (run q) || truthy (empty q)); [reflexivity|].
  destruct (Nat.eqb (List.length (queue q)) 0 && length_not_zero (length q)).
  - pose proof (hydrateQueue_frame q (batchSize q)) as H.
    destruct (hydrateQueue q (batchSize q)) as [q' [v|e]]; simpl in *;
      apply H.
  - destruct (negb (Nat.eqb (List.length (queue q)) 0)); [reflexivity|].
    unfold on_empty. simpl. destruct (db q); reflexivity.
Qed.

Lemma on_add_length (q : PQ) : length (st (on_add q)) = length q.
Proof.
  unfold on_add. destruct (truthy (empty q)); [|reflexivity].
  simpl. destruct (run q); [|reflexivity].
  rewrite trigger_next_length. reflexivity.
Qed.

Lemma removeJob_promise_length (q : PQ) (i : Z) (q' : PQ) (s : settlement) :
  removeJob_promise q i = RemoveSettled q' s -> length q' = length q.
Proof.
  unfold removeJob_promise. destruct (db q) as [d|].
  - simpl. destruct (_ =? 0); intros H; inversion H; reflexivity.
  - intros H; inversion H; reflexivity.
Qed.

Lemma removeJob_length (q : PQ) (i : option Z) (q' : PQ) (s : settlement) :
  removeJob q i = RemoveSettled q' s -> length q' = length q.
Proof.
  unfold removeJob. destruct i as [i|].
  - destruct (splice_id i (queue q)) as [w|]; [|discriminate].
    intros H. apply removeJob_promise_length in H. exact H.
  - destruct (queue q) as [|[j|] w]; try discriminate.
    intros H. apply removeJob_promise_length in H. exact H.
Qed.

Lemma exec_length (q : PQ) (o : op) (n : Z) :
  length q = Some n ->
  succeeded (exec q o) = true ->
  length (st (exec q o)) = Some (n + net o).
Proof.
  intros Hn. destruct o as [p|i|i| |]; simpl.
  - unfold add. destruct (db q) as [d|]; [|discriminate]. simpl.
    match goal with |- context [on_add ?x] => set (q2 := x) end.
    pose proof (on_add_length q2) as Hl.
    destruct (out (on_add q2)); simpl; try discriminate.
    intros _. rewrite Hl. unfold q2. simpl. rewrite Hn. reflexivity.
  - unfold done. destruct (removeJob q i) as [q' e|q' [v|e]] eqn:E;
      try discriminate.
    apply removeJob_length in E.
    match goal with |- context [trigger_next ?x] => set (q1 := x) end.
    pose proof (trigger_next_length q1) as Hl.
    unfold succeeded.
    destruct (out (trigger_next q1)) eqn:Eo; simpl; try discriminate.
    rewrite Eo. intros _. rewrite Hl. unfold q1. simpl. rewrite E, Hn.
    reflexivity.
  - unfold delete. destruct (removeJob q i) as [q' e|q' [v|e]] eqn:E;
      try discriminate.
    apply removeJob_length in E. simpl. intros _. rewrite E, Hn. reflexivity.
  - unfold start, on_start. destruct (db q); [|discriminate].
    destruct (run q).
    + intros _. simpl. rewrite Hn. f_equal. lia.
    + intros _. rewrite trigger_next_length. simpl. rewrite Hn. f_equal. lia.
  - intros _. rewrite Hn. f_equal. lia.
Qed.

Lemma run_all_length (ops : list op) :
  forall (q q' : PQ) (n : Z) (es : list event),
    length q = Some n ->
    run_all q ops = Some (q', es) ->
    length q' = Some (n + total_net ops).
Proof.
  induction ops as [|o rest IH]; simpl; intros q q' n es Hn Hrun.
  - inversion Hrun; subst. rewrite Hn. f_equal. lia.
  - destruct (succeeded (exec q o)) eqn:Es; [|discriminate].
    destruct (run_all (st (exec q o)) rest)
      as [[q1 es1]|] eqn:Er; [|discriminate].
    inversion Hrun; subst.
    rewrite (IH _ _ _ _ (exec_length q o n Hn Es) Er). f_equal. lia.
Qed.

Lemma total_net_app (a b : list op) :
  total_net (a ++ b) = total_net a + total_net b.
Proof.
  induction a as [|o a IH]; cbn [total_net app]; [reflexivity|].
  rewrite IH. lia.
Qed.

Lemma total_net_adds (ps : list payload) :
  total_net (map Add ps) = Z.of_nat (List.length ps).
Proof.
  induction ps as [|p ps IH]; cbn [total_net map net List.length];
    [reflexivity|]. rewrite IH. lia.
Qed.

Lemma total_net_removals (rs : list op) :
  forallb is_removal rs = true ->
  total_net rs = - Z.of_nat (List.length rs).
Proof.
  induction rs as [|o rs IH]; cbn [total_net forallb List.length];
    [reflexivity|].
  intros H. apply andb_prop in H. destruct H as [Ho Hrs].
  rewrite (IH Hrs). destruct o; cbn [net is_removal] in *;
    try discriminate; lia.
Qed.

Lemma total_net_lifecycle (ops : list op) :
  forallb is_lifecycle ops = true -> total_net ops = 0.
Proof.
  induction ops as [|o ops IH]; cbn [total_net forallb]; [reflexivity|].
  intros H. apply andb_prop in H. destruct H as [Ho Hops].
  rewrite (IH Hops). destruct o; cbn [net is_lifecycle] in *;
    try discriminate; lia.
Qed.

(** [open()] is fulfilled in sloppy code only. *)
Lemma open_settles (disk : database) (q : PQ) (v : jsval) :
  out (open disk q) = Fulfilled v -> strict = false.
Proof.
  unfold open, countQueue. cbn [db set_db].
  destruct strict; [discriminate|reflexivity].
Qed.

Lemma open_length (disk : database) (q : PQ) (v : jsval) :
  out (open disk q) = Fulfilled v ->
  length (st (open disk q)) = Some (Z.of_nat (List.length (rows disk))).
Proof.
  intros Hopen. pose proof (open_settles disk q v Hopen) as Hs. revert Hopen.
  unfold open, countQueue. rewrite Hs. simpl.
  match goal with |- context [hydrateQueue ?x ?y] =>
    pose proof (hydrateQueue_frame x y) as H;
    destruct (hydrateQueue x y) as [q3 [w|e]] end; simpl in *.
  - intros _. apply H.
  - discriminate.
Qed.

(** C3, as the code has it: on a queue whose [open()] was fulfilled on a
    store of [n] jobs, after any starts and stops, a run of successful adds
    followed by successful [done]/[delete] calls leaves [getLength()] at
    [n] plus the number of adds minus the number of removals; on a store
    that was empty at [open()] that is the number of adds minus the number
    of removals. *)
Theorem getLength_is_adds_minus_removals
  (disk : database) (q : PQ) (v : jsval)
  (pre : list op) (ps : list payload) (rs : list op)
  (q' : PQ) (es : list event) :
  out (open disk q) = Fulfilled v ->
  forallb is_lifecycle pre = true ->
  forallb is_removal rs = true ->
  run_all (st (open disk q))
    (pre ++ map Add ps ++ rs) = Some (q', es) ->
  getLength q' =
    VNum (Z.of_nat (List.length (rows disk))
          + Z.of_nat (List.length ps) - Z.of_nat (List.length rs))
  /\ (rows disk = [] ->
      getLength q' =
        VNum (Z.of_nat (List.length ps) - Z.of_nat (List.length rs))).
Proof.
  intros Hopen Hpre Hrs Hrun.
  pose proof (run_all_length _ _ _ _ _ (open_length disk q v Hopen) Hrun) as Hl.
  rewrite !total_net_app, total_net_adds, (total_net_removals rs Hrs),
    (total_net_lifecycle pre Hpre) in Hl.
  assert (H : getLength q' =
    VNum (Z.of_nat (List.length (rows disk))
          + Z.of_nat (List.length ps) - Z.of_nat (List.length rs))).
  { unfold getLength. rewrite Hl. f_equal. lia. }
  split; [exact H|].
  intros He. rewrite H, He. reflexivity.
Qed.

(** ** The count and the table agree *)

Lemma counted_zero (q : PQ) (d : database) :
  counted q d -> length_not_zero (length q) = false -> rows d = [].
Proof.
  intros Hc Hz. apply length_zero_test in Hz.
  rewrite (co_count _ _ Hc) in Hz. inversion Hz as [Hn].
  destruct (rows d); [reflexivity|]. simpl in Hn. lia.
Qed.

Lemma trigger_next_coherent (q : PQ) (d : database) :
  coherent q d ->
  exited (trigger_next q) = false ->
  exists d', coherent (st (trigger_next q)) d'
             /\ rows d' = rows d /\ seq d' = seq d.
Proof.
  intros [Hc He]. pose proof Hc as [Hdb Hkey Hcount Hsize].
  unfold trigger_next.
  destruct (negb (run q) || truthy (empty q)).
  { intros _. exists d. repeat split; assumption. }
  destruct (Nat.eqb (List.length (queue q)) 0) eqn:Hw; simpl.
  - destruct (length_not_zero (length q)) eqn:Hz.
    + unfold hydrateQueue. rewrite Hdb.
      destruct (forallb parses (sql_select_batch d (batchSize q)));
        [|discriminate].
      intros _. exists d. repeat split; assumption.
    + unfold on_empty. simpl. rewrite Hdb. intros _.
      exists (sql_vacuum d). simpl. repeat split; try assumption.
      intros _. apply (counted_zero q d Hc Hz).
  - intros _. exists d. repeat split; assumption.
Qed.

Lemma removeJob_settled (q : PQ) (d : database) (oi : option Z)
  (q' : PQ) (s : settlement) :
  db q = Some d ->
  removeJob q oi = RemoveSettled q' s ->
  exists i w,
    q' = set_db (set_queue q w) (Some (fst (sql_delete d i)))
    /\ ((s = Fulfil (VNum i) /\ filter (has_id i) (rows d) <> [])
        \/ ((exists e, s = Reject e) /\ filter (has_id i) (rows d) = [])).
Proof.
  intros Hd.
  assert (Hp : forall w i,
    removeJob_promise (set_queue q w) i = RemoveSettled q' s ->
    q' = set_db (set_queue q w) (Some (fst (sql_delete d i)))
    /\ ((s = Fulfil (VNum i) /\ filter (has_id i) (rows d) <> [])
        \/ ((exists e, s = Reject e) /\ filter (has_id i) (rows d) = []))).
  { intros w i. unfold removeJob_promise. simpl. rewrite Hd. simpl.
    destruct (filter (has_id i) (rows d)) as [|x l] eqn:Ef; simpl.
    - intros H. inversion H; subst. split; [reflexivity|].
      right. split; [eexists; reflexivity|reflexivity].
    - intros H. inversion H; subst. split; [reflexivity|].
      left. split; [reflexivity|discriminate]. }
  unfold removeJob. destruct oi as [i|].
  - destruct (splice_id i (queue q)) as [w|]; [|discriminate].
    intros H. exists i, w. apply Hp, H.
  - destruct (queue q) as [|[j|] w]; try discriminate.
    intros H. exists (id j), w. apply Hp, H.
Qed.

Lemma removeJob_threw (q : PQ) (oi : option Z) (q' : PQ) (e : jsval) :
  removeJob q oi = RemoveThrew q' e ->
  exists w, q' = set_queue q w.
Proof.
  assert (Hp : forall w i, removeJob_promise (set_queue q w) i <> RemoveThrew q' e).
  { intros w i. unfold removeJob_promise.
    destruct (db (set_queue q w)); [|discriminate].
    destruct (sql_delete d i) as [d' stmt].
    destruct (changes stmt =? 0); discriminate. }
  unfold removeJob. destruct oi as [i|].
  - destruct (splice_id i (queue q)) as [w|].
    + intros H. elim (Hp _ _ H).
    + intros H. injection H as Hq _. subst q'.
      exists (queue q). destruct q; reflexivity.
  - destruct (queue q) as [|[j|] w] eqn:Eq.
    + intros H. injection H as Hq _. subst q'.
      exists []. destruct q; simpl in *. rewrite Eq. reflexivity.
    + intros H. elim (Hp _ _ H).
    + intros H. injection H as Hq _. subst q'. exists w. reflexivity.
Qed.

Lemma counted_delete_hit (q : PQ) (d : database) (i : Z) (w : list (option Job)) :
  counted q d ->
  filter (has_id i) (rows d) <> [] ->
  counted
    (set_length (set_db (set_queue q w) (Some (fst (sql_delete d i))))
       (js_decr (length q)))
    (fst (sql_delete d i)).
Proof.
  intros [Hdb Hkey Hcount Hsize] Hhit.
  constructor; simpl; try assumption.
  - reflexivity.
  - apply filter_nodup_ids, Hkey.
  - rewrite Hcount. unfold js_decr. f_equal.
    pose proof (filter_has_keeps_length i (rows d)) as Hsum.
    rewrite (has_id_present i (rows d) Hkey (has_id_some i (rows d) Hhit)) in Hsum.
    lia.
Qed.

Lemma counted_delete_miss (q : PQ) (d : database) (i : Z) (w : list (option Job)) :
  counted q d ->
  filter (has_id i) (rows d) = [] ->
  counted (set_db (set_queue q w) (Some (fst (sql_delete d i))))
    (fst (sql_delete d i)).
Proof.
  intros [Hdb Hkey Hcount Hsize] Hmiss.
  constructor; simpl; try assumption.
  - reflexivity.
  - apply filter_nodup_ids, Hkey.
  - rewrite Hcount. f_equal.
    pose proof (filter_has_keeps_length i (rows d)) as Hsum.
    rewrite Hmiss in Hsum. simpl in Hsum. lia.
Qed.

Lemma counted_insert (q : PQ) (d : database) (text : string) :
  counted q d ->
  counted
    (set_length (set_db q (Some (fst (sql_insert d text)))) (js_incr (length q)))
    (fst (sql_insert d text)).
Proof.
  intros [Hdb Hkey Hcount Hsize].
  constructor; try assumption.
  - reflexivity.
  - apply insert_nodup_ids, Hkey.
  - simpl. rewrite Hcount. unfold js_incr. f_equal.
    rewrite length_app. simpl List.length. lia.
Qed.

Lemma filter_nil_of_nil (f : row -> bool) (l : list row) :
  l = [] -> filter f l = [].
Proof. intros ->. reflexivity. Qed.

Lemma add_eq (q : PQ) (d : database) (p : payload) :
  db q = Some d ->
  add q p =
    match out (on_add (inserted q d p)) with
    | Returned _ =>
        {| st := st (on_add (inserted q d p));
           evs := EvAdd VUndefined p :: evs (on_add (inserted q d p));
           out := Fulfilled VUndefined |}
    | _ =>
        {| st := st (on_add (inserted q d p));
           evs := EvAdd VUndefined p :: evs (on_add (inserted q d p));
           out := ProcessExit |}
    end.
Proof.
  intros H. unfold add. rewrite H. reflexivity.
Qed.

Lemma exec_coherent (q : PQ) (d : database) (o : op) :
  coherent q d ->
  exited (exec q o) = false ->
  exists d', coherent (st (exec q o)) d'.
Proof.
  intros [Hc He]. pose proof Hc as [Hdb Hkey Hcount Hsize].
  destruct o as [p|oi|oi| |]; simpl.
  - (* add *)
    rewrite (add_eq q d p Hdb).
    pose proof (counted_insert q d (stringify p) Hc) as Hc2.
    fold (inserted q d p) in Hc2.
    set (q2 := inserted q d p) in *.
    set (d2 := fst (sql_insert d (stringify p))) in *.
    assert (Hadd : exited (on_add q2) = false ->
                   exists d', coherent (st (on_add q2)) d').
    { unfold on_add. destruct (truthy (empty q2)) eqn:Et.
      - simpl. destruct (run q).
        + intros Hx.
          destruct (trigger_next_coherent (set_empty q2 (Some false)) d2) as (d' & H' & _).
          * split; [destruct Hc2; constructor; assumption|discriminate].
          * exact Hx.
          * exists d'. exact H'.
        + intros _. exists d2.
          split; [destruct Hc2; constructor; assumption|discriminate].
      - intros _. exists d2. split; [exact Hc2|].
        intros E. apply (proj2 (truthy_spec _)) in E.
        change (truthy (empty q2) = true) in E. congruence. }
    unfold exited in *.
    destruct (out (on_add q2)); simpl; intros H;
      try discriminate; apply Hadd; reflexivity.
  - (* done *)
    unfold done. destruct (removeJob q oi) as [q' e|q' s] eqn:E.
    + intros _. apply removeJob_threw in E. destruct E as [w ->].
      exists d. split; [constructor; assumption|exact He].
    + destruct (removeJob_settled q d oi q' s Hdb E)
        as (i & w & -> & [[-> Hhit]|[[e ->] Hmiss]]); [|discriminate].
      match goal with |- context [trigger_next ?x] => set (q1 := x) end.
      set (d1 := fst (sql_delete d i)).
      assert (Hc1 : counted q1 d1) by apply (counted_delete_hit q d i w Hc Hhit).
      assert (Ht : exited (trigger_next q1) = false ->
                   exists d', coherent (st (trigger_next q1)) d').
      { intros Hx. destruct (trigger_next_coherent q1 d1) as (d' & H' & _).
        - split; [exact Hc1|]. intros E1. apply filter_nil_of_nil, He, E1.
        - exact Hx.
        - exists d'. exact H'. }
      cbv zeta.
      destruct (out (trigger_next q1)) eqn:Eo; cbv beta iota;
        try (intros H; discriminate H).
      exact Ht.
  - (* delete *)
    unfold delete. destruct (removeJob q oi) as [q' e|q' s] eqn:E.
    + intros _. apply removeJob_threw in E. destruct E as [w ->].
      exists d. split; [constructor; assumption|exact He].
    + destruct (removeJob_settled q d oi q' s Hdb E)
        as (i & w & -> & [[-> Hhit]|[[e ->] Hmiss]]); intros _.
      * exists (fst (sql_delete d i)). split.
        -- apply (counted_delete_hit q d i w Hc Hhit).
        -- intros E1. apply filter_nil_of_nil, He, E1.
      * exists (fst (sql_delete d i)). split.
        -- apply (counted_delete_miss q d i w Hc Hmiss).
        -- intros E1. apply filter_nil_of_nil, He, E1.
  - (* start *)
    unfold start, on_start. rewrite Hdb. destruct (run q).
    + intros _. exists d. split; assumption.
    + intros Hx. destruct (trigger_next_coherent (set_run q true) d) as (d' & H' & _).
      * split; [constructor; assumption|exact He].
      * exact Hx.
      * exists d'. exact H'.
  - (* stop *)
    intros _. exists d. split; [constructor; assumption|exact He].
Qed.

Lemma run_ops_coherent (ops : list op) :
  forall (q : PQ) (d : database),
    coherent q d ->
    alive (run_ops q ops) = true ->
    exists d', coherent (final (run_ops q ops)) d'.
Proof.
  induction ops as [|o rest IH]; simpl; intros q d Hc Hal.
  - exists d. exact Hc.
  - destruct (exited (exec q o)) eqn:Ex; [discriminate|].
    simpl in *.
    destruct (exec_coherent q d o Hc Ex) as [d1 Hc1].
    apply (IH _ d1 Hc1 Hal).
Qed.

Lemma construct_batchSize (f : option string) (size : jsval) (q : PQ) :
  construct f size = inl q ->
  1 <= batchSize q /\ run q = false /\ empty q = None /\ queue q = []
  /\ length q = None /\ db q = None /\ opened q = false.
Proof.
  unfold construct. destruct f as [f|]; [|discriminate].
  destruct size; simpl; try discriminate.
  - intros H. inversion H; subst. simpl. repeat split. lia.
  - destruct (n <? 1) eqn:E; [discriminate|].
    intros H. inversion H; subst. simpl. apply Z.ltb_ge in E.
    repeat split. exact E.
Qed.

Lemma order_by_id_nil (l : list row) : order_by_id l = [] -> l = [].
Proof.
  intros H. pose proof (order_by_id_length l) as Hl. rewrite H in Hl.
  destruct l; [reflexivity|discriminate].
Qed.

Lemma open_coherent (disk : database) (q : PQ) (v : jsval) :
  NoDup (map row_id (rows disk)) ->
  1 <= batchSize q ->
  out (open disk q) = Fulfilled v ->
  coherent (st (open disk q)) (sql_schema disk).
Proof.
  intros Hkey Hsize Hopen. pose proof (open_settles disk q v Hopen) as Hs.
  revert Hopen. unfold open, countQueue. rewrite Hs. simpl.
  unfold hydrateQueue. simpl.
  destruct (forallb parses
              (sql_select_batch (sql_schema disk) (batchSize q))); [|discriminate].
  simpl. intros _. split.
  - constructor; simpl; try assumption; reflexivity.
  - simpl. rewrite length_map. intros H. inversion H as [Hz].
    apply Nat.eqb_eq in Hz. apply length_zero_iff_nil in Hz.
    apply order_by_id_nil.
    destruct (order_by_id (rows disk)) as [|x l] eqn:El; [reflexivity|].
    exfalso. apply (limit_nonempty (batchSize q) (x :: l) Hsize); [discriminate|].
    unfold sql_select_batch in Hz. simpl in Hz. rewrite El in Hz. exact Hz.
Qed.

(** X19: one direction of the emptiness flag.  In every state reached
    after a fulfilled [open()] of a queue whose batch size is an integer
    not below 1 by adds, [done]/[delete] calls, starts and stops,
    [isEmpty()] returning true implies [getLength() == 0]. *)
Theorem isEmpty_implies_no_jobs
  (q : PQ) (disk : database) (v : jsval) (ops : list op) :
  1 <= batchSize q ->
  NoDup (map row_id (rows disk)) ->
  out (open disk q) = Fulfilled v ->
  alive (run_ops (st (open disk q)) ops) = true ->
  isEmpty (final (run_ops (st (open disk q)) ops))
    = Returned (VBool true) ->
  getLength (final (run_ops (st (open disk q)) ops))
    = VNum 0.
Proof.
  intros Hsize Hkey Hopen Hal Hempty.
  destruct (run_ops_coherent ops _ _ (open_coherent disk q v Hkey Hsize Hopen) Hal)
    as (d' & Hc & He).
  unfold isEmpty in Hempty. unfold getLength.
  destruct (empty (final (run_ops (st (open disk q)) ops)))
    as [b|]; [|discriminate].
  inversion Hempty; subst.
  rewrite (co_count _ _ Hc), (He eq_refl). reflexivity.
Qed.

(** ** The order of the jobs told through [next] *)

Lemma strictly_below_weaken (es : list Z) (d : database) :
  strictly_below es d -> below es d.
Proof.
  intros H e r He Hr. specialize (H e r He Hr). lia.
Qed.

Lemma fifo_pre_inv (q : PQ) (es : list Z) : fifo_pre q es -> fifo_inv q es.
Proof.
  intros (d & wrows & rest & W & T & B).
  exists d, wrows, rest.
  split; [exact W|]. split; [exact T|]. split.
  - apply strictly_below_weaken, B.
  - intros _. exact B.
Qed.

Lemma js_number_safe (n : Z) : safe_id n -> js_number n = n.
Proof.
  unfold safe_id, js_number, max_safe_integer. intros H.
  assert (Hl : Z.log2 (Z.abs n) < 53).
  { destruct (Z.eq_dec (Z.abs n) 0) as [E|E]; [rewrite E; reflexivity|].
    apply Z.log2_lt_pow2; [lia|]. change (2 ^ 53) with 9007199254740992. lia. }
  destruct (Z.log2 (Z.abs n) - 52 <=? 0) eqn:E; [reflexivity|].
  apply Z.leb_gt in E. lia.
Qed.

Lemma parses_row (r : row) :
  parses r = true -> safe_id (row_id r) ->
  exists j, parse_row r = Some j /\ id j = row_id r.
Proof.
  unfold parses, parse_row. destruct (parse (row_job r)) as [p|]; [|discriminate].
  intros _ Hs. eexists. split; [reflexivity|]. apply js_number_safe, Hs.
Qed.

Lemma windowed_safe (q : PQ) (d : database) (wrows rest : list row) (r : row) :
  windowed q d wrows rest -> In r wrows -> safe_id (row_id r).
Proof.
  intros W Hr. apply (w_safe _ _ _ _ W). apply order_by_id_In.
  rewrite (w_split _ _ _ _ W). apply in_or_app. left. exact Hr.
Qed.

Lemma windowed_head_in (q : PQ) (d : database) (r0 : row) (w' rest : list row) :
  windowed q d (r0 :: w') rest -> In r0 (rows d).
Proof.
  intros W. apply order_by_id_In. rewrite (w_split _ _ _ _ W). left. reflexivity.
Qed.

Lemma windowed_head_least (q : PQ) (d : database) (r0 : row) (w' rest : list row) (r : row) :
  windowed q d (r0 :: w') rest -> In r (rows d) -> row_id r0 <= row_id r.
Proof.
  intros W Hr. apply order_by_id_In in Hr.
  pose proof (order_by_id_sorted (rows d)) as Hs.
  rewrite (w_split _ _ _ _ W) in Hr, Hs.
  apply (sorted_head_least r0 (w' ++ rest) r Hs Hr).
Qed.

Lemma windowed_head_strict (q : PQ) (d : database) (r0 : row) (w' rest : list row) (r : row) :
  windowed q d (r0 :: w') rest -> In r (rows d) -> row_id r <> row_id r0 ->
  row_id r0 < row_id r.
Proof.
  intros W Hr Hne.
  pose proof (windowed_head_least q d r0 w' rest r W Hr). lia.
Qed.

(** Telling the head of a window that is not empty. *)
Lemma emit_head (q : PQ) (es : list Z) (d : database) (r0 : row) (w' rest : list row) :
  windowed q d (r0 :: w') rest -> told q es d -> strictly_below es d ->
  run q = true ->
  (exists j, parse_row r0 = Some j /\ id j = row_id r0)
  /\ ascending (es ++ [row_id r0])
  /\ fifo_inv q (es ++ [row_id r0]).
Proof.
  intros W T B Hr.
  pose proof (windowed_head_in q d r0 w' rest W) as Hin.
  assert (Hp : parses r0 = true).
  { pose proof (w_parses _ _ _ _ W) as H. simpl in H.
    apply andb_prop in H. apply H. }
  assert (Hasc : ascending (es ++ [row_id r0])).
  { apply ascending_snoc; [apply (t_ascending _ _ _ T)|].
    intros e He. apply (B e r0 He Hin). }
  split; [apply (parses_row r0 Hp), (w_safe _ _ _ _ W), Hin|]. split; [exact Hasc|].
  exists d, (r0 :: w'), rest. split; [exact W|]. split; [|split].
  - constructor; [exact Hasc| |].
    + intros e He. apply in_app_or in He. destruct He as [He|[<-|[]]].
      * apply (t_seq _ _ _ T e He).
      * apply (w_seq _ _ _ _ W r0 Hin).
    + intros Hf. congruence.
  - intros e r He Hin'. apply in_app_or in He. destruct He as [He|[<-|[]]].
    + specialize (B e r He Hin'). lia.
    + apply (windowed_head_least q d r0 w' rest r W Hin').
  - discriminate.
Qed.

Lemma trigger_next_fifo (q : PQ) (es : list Z) :
  fifo_pre q es ->
  step_ok es (trigger_next q)
  /\ (out (trigger_next q) = Returned VUndefined
      \/ out (trigger_next q) = ProcessExit).
Proof.
  intros Hpre. pose proof Hpre as (d & wrows & rest & W & T & B).
  pose proof (w_coherent _ _ _ _ W) as [Hc He].
  pose proof Hc as [Hdb Hkey Hcount Hsize].
  destruct (negb (run q) || truthy (empty q)) eqn:C.
  { rewrite (trigger_next_noop q C). split; [|left; reflexivity].
    unfold step_ok. simpl. rewrite app_nil_r.
    split; [reflexivity|]. split; [apply (t_ascending _ _ _ T)|].
    intros _. apply fifo_pre_inv, Hpre. }
  apply orb_false_elim in C. destruct C as [Cr Ce].
  apply negb_false_iff in Cr.
  destruct wrows as [|r0 w'].
  - pose proof (w_queue _ _ _ _ W) as Hq. simpl in Hq.
    destruct (length_not_zero (length q)) eqn:Hz.
    + rewrite (trigger_next_hydrate q d Cr Ce Hq Hz Hdb).
      destruct (forallb parses (sql_select_batch d (batchSize q))) eqn:Hp.
      * split; [|left; reflexivity].
        assert (Hne : order_by_id (rows d) <> []).
        { intros E. apply order_by_id_nil in E.
          rewrite Hcount, E in Hz. discriminate. }
        pose proof (limit_nonempty (batchSize q) _ Hsize Hne) as Hb.
        destruct (limit_prefix (batchSize q) (order_by_id (rows d))) as [rest' Hrest].
        unfold sql_select_batch in *.
        destruct (limit (batchSize q) (order_by_id (rows d))) as [|r0 b'] eqn:Eb;
          [contradiction|].
        assert (W' : windowed (set_queue q (map parse_row (r0 :: b')))
                       d (r0 :: b') rest').
        { constructor; try assumption.
          - split; [constructor; assumption|exact He].
          - apply (w_seq _ _ _ _ W).
          - reflexivity.
          - apply (w_safe _ _ _ _ W). }
        assert (T' : told (set_queue q (map parse_row (r0 :: b'))) es d).
        { destruct T; constructor; assumption. }
        destruct (emit_head _ es d r0 b' rest' W' T' B Cr)
          as ((j & Hj & Hid) & Hasc & Hinv).
        unfold step_ok. simpl. rewrite Hj. simpl. rewrite Hid.
        split; [reflexivity|]. split; [exact Hasc|].
        intros _. simpl in Hinv. rewrite Hj in Hinv. exact Hinv.
      * split; [|right; reflexivity].
        unfold step_ok. simpl. rewrite app_nil_r.
        split; [reflexivity|]. split; [apply (t_ascending _ _ _ T)|].
        discriminate.
    + rewrite (trigger_next_empty q d Cr Ce Hq Hz Hdb).
      split; [|left; reflexivity].
      unfold step_ok. simpl. rewrite app_nil_r.
      split; [reflexivity|]. split; [apply (t_ascending _ _ _ T)|].
      intros _. exists (sql_vacuum d), [], rest.
      split; [|split; [|split]].
      * constructor; simpl.
        -- split; [constructor; simpl; assumption || reflexivity|].
           intros _. apply (counted_zero q d Hc Hz).
        -- apply (w_seq _ _ _ _ W).
        -- apply (w_split _ _ _ _ W).
        -- exact Hq.
        -- reflexivity.
        -- apply (w_safe _ _ _ _ W).
      * destruct T; constructor; assumption.
      * intros e r Hin Hr. specialize (B e r Hin Hr). lia.
      * intros _. exact B.
  - pose proof (w_queue _ _ _ _ W) as Hq. simpl in Hq.
    rewrite (trigger_next_head q _ _ Cr Ce Hq).
    split; [|left; reflexivity].
    destruct (emit_head q es d r0 w' rest W T B Cr)
      as ((j & Hj & Hid) & Hasc & Hinv).
    unfold step_ok. simpl. rewrite Hj. simpl. rewrite Hid.
    split; [reflexivity|]. split; [exact Hasc|].
    intros _. exact Hinv.
Qed.

(** *** Adding a job *)

Lemma max_rowid_nonneg (l : list row) : 0 <= max_rowid l.
Proof. induction l as [|x l IH]; simpl; lia. Qed.

Lemma next_rowid_positive (d : database) : 1 <= next_rowid d.
Proof. unfold next_rowid. pose proof (max_rowid_nonneg (rows d)). lia. Qed.

Lemma windowed_insert (q q2 : PQ) (d : database) (wrows rest : list row) (p : payload) :
  windowed q d wrows rest ->
  db q2 = Some (fst (sql_insert d (stringify p))) ->
  length q2 = js_incr (length q) ->
  batchSize q2 = batchSize q ->
  queue q2 = queue q ->
  empty q2 <> Some true ->
  next_rowid d <= max_safe_integer ->
  windowed q2 (fst (sql_insert d (stringify p))) wrows (rest ++ [new_row d p]).
Proof.
  intros W Hdb2 Hlen2 Hbs2 Hq2 He2 Hfit.
  pose proof (w_coherent _ _ _ _ W) as [Hc He].
  pose proof (counted_insert q d (stringify p) Hc) as [Hdb' Hkey' Hcount' Hsize'].
  constructor.
  - split; [|intros E; contradiction].
    constructor; try assumption.
    + rewrite Hlen2. exact Hcount'.
    + rewrite Hbs2. apply (co_size _ _ Hc).
  - intros r Hr. simpl in *. apply in_app_or in Hr.
    destruct Hr as [Hr|[<-|[]]]; simpl.
    + apply next_rowid_fresh in Hr. lia.
    + lia.
  - simpl. rewrite order_by_id_snoc.
    + rewrite (w_split _ _ _ _ W), <- app_assoc. reflexivity.
    + intros r Hr. apply next_rowid_fresh in Hr. simpl. lia.
  - rewrite Hq2. apply (w_queue _ _ _ _ W).
  - apply (w_parses _ _ _ _ W).
  - intros r Hr. simpl in Hr. apply in_app_or in Hr.
    destruct Hr as [Hr|[<-|[]]]; [apply (w_safe _ _ _ _ W), Hr|].
    simpl. unfold safe_id. pose proof (next_rowid_positive d). lia.
Qed.

Lemma told_frame (q q' : PQ) (es : list Z) (d d' : database) :
  told q es d -> run q' = run q -> seq d <= seq d' -> told q' es d'.
Proof.
  intros [Ha Hs Hr] Hrun Hseq. constructor.
  - exact Ha.
  - intros e He. specialize (Hs e He). lia.
  - rewrite Hrun. exact Hr.
Qed.

Lemma seq_insert (d : database) (text : string) :
  seq d < seq (fst (sql_insert d text)).
Proof. simpl. unfold next_rowid. lia. Qed.

Lemma below_insert (q : PQ) (es : list Z) (d : database) (text : string) :
  told q es d -> below es d -> below es (fst (sql_insert d text)).
Proof.
  intros T B e r He Hr. simpl in Hr. apply in_app_or in Hr.
  destruct Hr as [Hr|[<-|[]]].
  - apply (B e r He Hr).
  - simpl. pose proof (t_seq _ _ _ T e He). unfold next_rowid. lia.
Qed.

Lemma strictly_below_insert (q : PQ) (es : list Z) (d : database) (text : string) :
  told q es d -> strictly_below es d ->
  strictly_below es (fst (sql_insert d text)).
Proof.
  intros T B e r He Hr. simpl in Hr. apply in_app_or in Hr.
  destruct Hr as [Hr|[<-|[]]].
  - apply (B e r He Hr).
  - simpl. pose proof (t_seq _ _ _ T e He). unfold next_rowid. lia.
Qed.

Lemma strictly_below_no_rows (es : list Z) (d : database) :
  rows d = [] -> strictly_below es d.
Proof. intros E e r _ Hr. rewrite E in Hr. destruct Hr. Qed.

Lemma on_add_fifo (q : PQ) (es : list Z) (d : database) (p : payload) :
  fifo_inv q es -> db q = Some d -> next_rowid d <= max_safe_integer ->
  step_ok es (on_add (inserted q d p))
  /\ (out (on_add (inserted q d p)) = Returned VUndefined
      \/ out (on_add (inserted q d p)) = ProcessExit).
Proof.
  intros (d0 & wrows & rest & W & T & B & Sb) Hdb Hfit.
  pose proof (w_coherent _ _ _ _ W) as [Hc He].
  assert (d0 = d) by (rewrite (co_db _ _ Hc) in Hdb; congruence). subst d0.
  set (d2 := fst (sql_insert d (stringify p))).
  assert (Hseq : seq d <= seq d2) by (pose proof (seq_insert d (stringify p)); unfold d2; lia).
  unfold on_add.
  change (empty (inserted q d p)) with (empty q).
  destruct (truthy (empty q)) eqn:Et.
  - apply truthy_spec in Et.
    change (run (set_empty (inserted q d p) (Some false))) with (run q).
    assert (W1 : windowed (set_empty (inserted q d p) (Some false)) d2 wrows
                   (rest ++ [new_row d p])).
    { apply (windowed_insert q _ d wrows rest p W); try reflexivity;
        [discriminate|exact Hfit]. }
    assert (T1 : told (set_empty (inserted q d p) (Some false)) es d2).
    { apply (told_frame q _ es d d2 T); [reflexivity|exact Hseq]. }
    assert (B1 : strictly_below es d2).
    { apply (strictly_below_insert q es d (stringify p) T).
      apply strictly_below_no_rows, He, Et. }
    assert (P1 : fifo_pre (set_empty (inserted q d p) (Some false)) es).
    { exists d2, wrows, (rest ++ [new_row d p]).
      split; [exact W1|]. split; [exact T1|exact B1]. }
    destruct (run q).
    + apply trigger_next_fifo, P1.
    + split; [|left; reflexivity].
      unfold step_ok. simpl. rewrite app_nil_r.
      split; [reflexivity|]. split; [apply (t_ascending _ _ _ T)|].
      intros _. apply fifo_pre_inv, P1.
  - split; [|left; reflexivity].
    unfold step_ok. simpl. rewrite app_nil_r.
    split; [reflexivity|]. split; [apply (t_ascending _ _ _ T)|].
    intros _. exists d2, wrows, (rest ++ [new_row d p]).
    split; [|split; [|split]].
    + apply (windowed_insert q _ d wrows rest p W); try reflexivity;
        [|exact Hfit].
      simpl. intros E. rewrite E in Et. discriminate.
    + apply (told_frame q _ es d d2 T); [reflexivity|exact Hseq].
    + apply (below_insert q es d (stringify p) T B).
    + intros Hw. apply (strictly_below_insert q es d (stringify p) T (Sb Hw)).
Qed.

Lemma add_fifo (q : PQ) (es : list Z) (p : payload) :
  fifo_inv q es -> fits_number q (Add p) = true -> step_ok es (add q p).
Proof.
  intros Hinv Hfit. pose proof Hinv as (d & wrows & rest & W & _).
  pose proof (co_db _ _ (proj1 (w_coherent _ _ _ _ W))) as Hdb.
  unfold fits_number in Hfit. rewrite Hdb in Hfit. apply Z.leb_le in Hfit.
  rewrite (add_eq q d p Hdb).
  destruct (on_add_fifo q es d p Hinv Hdb Hfit) as ((U & A & I) & [E|E]);
    rewrite E; unfold step_ok; simpl;
    (split; [exact U|split; [exact A|]]).
  - intros _. apply I. unfold exited. rewrite E. reflexivity.
  - discriminate.
Qed.

(** *** Removing a job *)

Lemma forallb_filter (f g : row -> bool) (l : list row) :
  forallb f l = true -> forallb f (filter g l) = true.
Proof.
  induction l as [|x l IH]; simpl; intros H; [reflexivity|].
  apply andb_prop in H. destruct H as [Hx Hl].
  destruct (g x); simpl; [rewrite Hx|]; apply IH, Hl.
Qed.

Lemma splice_id_parsed (i : Z) (wrows : list row) :
  NoDup (map row_id wrows) ->
  forallb parses wrows = true ->
  (forall r, In r wrows -> safe_id (row_id r)) ->
  splice_id i (map parse_row wrows) =
    Some (map parse_row (filter (keeps i) wrows)).
Proof.
  induction wrows as [|r w IH]; simpl; intros Hn Hp Hs; [reflexivity|].
  apply andb_prop in Hp. destruct Hp as [Hr Hw].
  inversion Hn as [|? ? Hnot Hn']; subst.
  destruct (parses_row r Hr (Hs r (or_introl eq_refl))) as (j & Hj & Hid).
  rewrite Hj, Hid. unfold keeps at 1, has_id.
  destruct (row_id r =? i) eqn:E; simpl.
  - apply Z.eqb_eq in E. subst i.
    rewrite (keeps_absent _ _ Hnot). reflexivity.
  - rewrite (IH Hn' Hw (fun x Hx => Hs x (or_intror Hx))). simpl.
    rewrite Hj. reflexivity.
Qed.

Lemma windowed_nodup (q : PQ) (d : database) (wrows rest : list row) :
  windowed q d wrows rest -> NoDup (map row_id wrows).
Proof.
  intros W.
  pose proof (order_by_id_nodup (rows d)
                (co_key _ _ (proj1 (w_coherent _ _ _ _ W)))) as H.
  rewrite (w_split _ _ _ _ W), map_app in H.
  apply NoDup_app_remove_r in H. exact H.
Qed.

Lemma removeJob_promise_eq (q : PQ) (d : database) (i : Z) :
  db q = Some d ->
  removeJob_promise q i =
    RemoveSettled (set_db q (Some (fst (sql_delete d i)))) (delete_settles d i).
Proof.
  intros Hd. unfold removeJob_promise, delete_settles. rewrite Hd. simpl.
  destruct (filter (has_id i) (rows d)); reflexivity.
Qed.

Lemma removeJob_by_id (q : PQ) (d : database) (wrows rest : list row) (i : Z) :
  windowed q d wrows rest ->
  removeJob q (Some i) = RemoveSettled (deleted q d wrows i) (delete_settles d i).
Proof.
  intros W. unfold removeJob.
  rewrite (w_queue _ _ _ _ W),
    (splice_id_parsed i wrows (windowed_nodup q d wrows rest W) (w_parses _ _ _ _ W)
       (fun r Hr => windowed_safe q d wrows rest r W Hr)).
  apply removeJob_promise_eq. simpl.
  apply (co_db _ _ (proj1 (w_coherent _ _ _ _ W))).
Qed.

Lemma head_hit (q : PQ) (d : database) (r0 : row) (w' rest : list row) :
  windowed q d (r0 :: w') rest -> filter (has_id (row_id r0)) (rows d) <> [].
Proof.
  intros W E.
  pose proof (windowed_head_in q d r0 w' rest W) as Hin.
  assert (H : In r0 (filter (has_id (row_id r0)) (rows d))).
  { apply filter_In. split; [exact Hin|]. unfold has_id. apply Z.eqb_refl. }
  rewrite E in H. destruct H.
Qed.

Lemma removeJob_head (q : PQ) (d : database) (r0 : row) (w' rest : list row) :
  windowed q d (r0 :: w') rest ->
  removeJob q None =
    RemoveSettled (deleted q d (r0 :: w') (row_id r0)) (Fulfil (VNum (row_id r0))).
Proof.
  intros W.
  pose proof (removeJob_by_id q d (r0 :: w') rest (row_id r0) W) as H.
  unfold delete_settles in H.
  destruct (filter (has_id (row_id r0)) (rows d)) eqn:E;
    [elim (head_hit q d r0 w' rest W E)|].
  rewrite <- H. unfold removeJob.
  pose proof (w_queue _ _ _ _ W) as Hq. simpl in Hq.
  assert (Hp : parses r0 = true).
  { pose proof (w_parses _ _ _ _ W) as Hp. simpl in Hp.
    apply andb_prop in Hp. apply Hp. }
  destruct (parses_row r0 Hp (windowed_safe q d _ rest r0 W (or_introl eq_refl)))
    as (j & Hj & Hid).
  rewrite Hq, Hj. simpl. rewrite Hid, Z.eqb_refl. reflexivity.
Qed.

Lemma removeJob_nothing (q : PQ) :
  queue q = [] ->
  removeJob q None = RemoveThrew q (TypeError "id of undefined").
Proof.
  intros Hq. unfold removeJob. rewrite Hq. reflexivity.
Qed.

Lemma windowed_delete_hit (q : PQ) (d : database) (wrows rest : list row) (i : Z) :
  windowed q d wrows rest ->
  filter (has_id i) (rows d) <> [] ->
  windowed
    (set_length (deleted q d wrows i) (js_decr (length (deleted q d wrows i))))
    (fst (sql_delete d i)) (filter (keeps i) wrows) (filter (keeps i) rest).
Proof.
  intros W Hhit. pose proof (w_coherent _ _ _ _ W) as [Hc He].
  constructor.
  - split.
    + apply (counted_delete_hit q d i _ Hc Hhit).
    + intros E. apply filter_nil_of_nil, He, E.
  - intros r Hr. simpl in Hr. apply filter_In in Hr.
    apply (w_seq _ _ _ _ W r), Hr.
  - simpl. rewrite order_by_id_filter, (w_split _ _ _ _ W), filter_app.
    reflexivity.
  - reflexivity.
  - apply forallb_filter, (w_parses _ _ _ _ W).
  - intros r Hr. simpl in Hr. apply filter_In in Hr.
    apply (w_safe _ _ _ _ W r), Hr.
Qed.

Lemma windowed_delete_miss (q : PQ) (d : database) (wrows rest : list row) (i : Z) :
  windowed q d wrows rest ->
  filter (has_id i) (rows d) = [] ->
  windowed (deleted q d wrows i) (fst (sql_delete d i))
    (filter (keeps i) wrows) (filter (keeps i) rest).
Proof.
  intros W Hmiss. pose proof (w_coherent _ _ _ _ W) as [Hc He].
  constructor.
  - split.
    + apply (counted_delete_miss q d i _ Hc Hmiss).
    + intros E. apply filter_nil_of_nil, He, E.
  - intros r Hr. simpl in Hr. apply filter_In in Hr.
    apply (w_seq _ _ _ _ W r), Hr.
  - simpl. rewrite order_by_id_filter, (w_split _ _ _ _ W), filter_app.
    reflexivity.
  - reflexivity.
  - apply forallb_filter, (w_parses _ _ _ _ W).
  - intros r Hr. simpl in Hr. apply filter_In in Hr.
    apply (w_safe _ _ _ _ W r), Hr.
Qed.

Lemma below_delete (es : list Z) (d : database) (i : Z) :
  below es d -> below es (fst (sql_delete d i)).
Proof.
  intros B e r He Hr. simpl in Hr. apply filter_In in Hr.
  apply (B e r He), Hr.
Qed.

Lemma strictly_below_delete (es : list Z) (d : database) (i : Z) :
  strictly_below es d -> strictly_below es (fst (sql_delete d i)).
Proof.
  intros B e r He Hr. simpl in Hr. apply filter_In in Hr.
  apply (B e r He), Hr.
Qed.

(** Once the head of the window is deleted, every stored job is above the
    jobs told. *)
Lemma strictly_below_after_head (q : PQ) (es : list Z) (d : database)
  (r0 : row) (w' rest : list row) :
  windowed q d (r0 :: w') rest -> below es d ->
  strictly_below es (fst (sql_delete d (row_id r0))).
Proof.
  intros W B e r He Hr. simpl in Hr. apply filter_In in Hr.
  destruct Hr as [Hr Hk]. unfold keeps, has_id in Hk.
  apply negb_true_iff, Z.eqb_neq in Hk.
  pose proof (windowed_head_strict q d r0 w' rest r W Hr Hk).
  pose proof (B e r0 He (windowed_head_in q d r0 w' rest W)). lia.
Qed.

Lemma strictly_below_emptied (q : PQ) (es : list Z) (d : database)
  (wrows rest : list row) (i : Z) :
  windowed q d wrows rest -> below es d ->
  (wrows = [] -> strictly_below es d) ->
  filter (keeps i) wrows = [] ->
  strictly_below es (fst (sql_delete d i)).
Proof.
  intros W B Sb Hf. destruct wrows as [|r0 w'].
  - apply strictly_below_delete, Sb. reflexivity.
  - simpl in Hf. unfold keeps at 1, has_id in Hf.
    destruct (row_id r0 =? i) eqn:E; [|discriminate].
    apply Z.eqb_eq in E. subst i.
    apply (strictly_below_after_head q es d r0 w' rest W B).
Qed.

(** *** [done], [delete] and [start] *)




Lemma delete_settled_fifo (q : PQ) (es : list Z) (d : database)
  (wrows rest : list row) (i : Z) (oi : option Z) :
  windowed q d wrows rest -> told q es d -> below es d ->
  (wrows = [] -> strictly_below es d) ->
  removeJob q oi = RemoveSettled (deleted q d wrows i) (delete_settles d i) ->
  step_ok es (delete q oi).
Proof.
  intros W T B Sb Hrm. unfold delete. rewrite Hrm. unfold delete_settles.
  destruct (filter (has_id i) (rows d)) as [|x l] eqn:Ef.
  - unfold step_ok. simpl. rewrite app_nil_r.
    split; [reflexivity|]. split; [apply (t_ascending _ _ _ T)|].
    intros _.
    exists (fst (sql_delete d i)), (filter (keeps i) wrows), (filter (keeps i) rest).
    split; [apply (windowed_delete_miss q d wrows rest i W Ef)|].
    split; [apply (told_frame q _ es d _ T); [reflexivity|simpl; lia]|].
    split; [apply below_delete, B|].
    apply (strictly_below_emptied q es d wrows rest i W B Sb).
  - assert (Hhit : filter (has_id i) (rows d) <> []) by (rewrite Ef; discriminate).
    unfold step_ok. simpl evs. simpl next_ids. rewrite app_nil_r.
    split; [reflexivity|]. split; [apply (t_ascending _ _ _ T)|].
    intros _.
    exists (fst (sql_delete d i)), (filter (keeps i) wrows), (filter (keeps i) rest).
    split; [apply (windowed_delete_hit q d wrows rest i W Hhit)|].
    split; [apply (told_frame q _ es d _ T); [reflexivity|simpl; lia]|].
    split; [apply below_delete, B|].
    apply (strictly_below_emptied q es d wrows rest i W B Sb).
Qed.

Lemma delete_fifo (q : PQ) (es : list Z) (oi : option Z) :
  fifo_inv q es -> step_ok es (delete q oi).
Proof.
  intros Hinv. pose proof Hinv as (d & wrows & rest & W & T & B & Sb).
  destruct oi as [i|].
  - apply (delete_settled_fifo q es d wrows rest i (Some i) W T B Sb).
    apply (removeJob_by_id q d wrows rest i W).
  - destruct wrows as [|r0 w'].
    + pose proof (w_queue _ _ _ _ W) as Hq. simpl in Hq.
      unfold delete. rewrite (removeJob_nothing q Hq).
      unfold step_ok. simpl. rewrite app_nil_r.
      split; [reflexivity|]. split; [apply (t_ascending _ _ _ T)|].
      intros _. exact Hinv.
    + apply (delete_settled_fifo q es d (r0 :: w') rest (row_id r0) None W T B Sb).
      rewrite (removeJob_head q d r0 w' rest W). unfold delete_settles.
      destruct (filter (has_id (row_id r0)) (rows d)) eqn:E;
        [elim (head_hit q d r0 w' rest W E)|reflexivity].
Qed.

Lemma start_fifo (q : PQ) (es : list Z) :
  fifo_inv q es -> step_ok es (start q).
Proof.
  intros Hinv. pose proof Hinv as (d & wrows & rest & W & T & B & Sb).
  pose proof (w_coherent _ _ _ _ W) as [Hc He].
  unfold start, on_start. rewrite (co_db _ _ Hc).
  destruct (run q) eqn:Er.
  - unfold step_ok. simpl. rewrite app_nil_r.
    split; [reflexivity|]. split; [apply (t_ascending _ _ _ T)|].
    intros _. exact Hinv.
  - rewrite (t_run _ _ _ T Er) in *.
    apply trigger_next_fifo.
    exists d, wrows, rest. split; [|split].
    + destruct W as [[[Hdb Hkey Hcount Hsize] He'] Hs Hsp Hq Hp Hsafe].
      constructor; try assumption.
      split; [constructor; assumption|exact He'].
    + constructor; [constructor| |reflexivity]. intros e [].
    + intros e r [].
Qed.




Lemma open_fifo (disk : database) (q : PQ) (v : jsval) :
  NoDup (map row_id (rows disk)) ->
  (forall r, In r (rows disk) -> row_id r <= seq disk) ->
  safe_store disk ->
  1 <= batchSize q ->
  out (open disk q) = Fulfilled v ->
  fifo_inv (st (open disk q)) [].
Proof.
  intros Hkey Hseq Hsafe Hsize Hopen.
  pose proof (open_coherent disk q v Hkey Hsize Hopen) as Hc.
  pose proof (open_settles disk q v Hopen) as Hs.
  revert Hopen Hc. unfold open, countQueue. rewrite Hs. simpl.
  unfold hydrateQueue. simpl.
  destruct (forallb parses
              (sql_select_batch (sql_schema disk) (batchSize q))) eqn:Hp;
    [|discriminate].
  simpl. intros _ Hc.
  destruct (limit_prefix (batchSize q) (order_by_id (rows disk))) as [rest Hrest].
  exists (sql_schema disk), (sql_select_batch (sql_schema disk) (batchSize q)), rest.
  split; [|split; [|split]].
  - constructor; try assumption; reflexivity.
  - constructor; [constructor| |reflexivity]. intros e [].
  - intros e r [].
  - intros _ e r [].
Qed.



(** * Properties beyond the claims *)

(** ** Before [open()] *)

(** X1: a queue that was constructed and not opened refuses to work, and
    no call changes the object or emits an event.  [start()], [isEmpty()]
    and [getSqlite3()] throw, [getLength()] is null, the promises of [add],
    [close], [delete(id)], [has(id)] and [getJobIds] are rejected,
    [done(id)] ends the process, and [getFirstJobId] leaves its promise
    unsettled with an unhandled rejection. *)
Theorem unopened_queue_refuses (f : option string) (size : jsval) (q : PQ) :
  construct f size = inl q ->
  start q = {| st := q; evs := [];
               out := Threw (Error "Open queue database before starting queue") |}
  /\ isEmpty q = Threw (Error "Call open() method before calling isEmpty()")
  /\ getSqlite3 q = inr (Error "Call open() method before calling getSqlite3()")
  /\ getLength q = VNull
  /\ (forall p, add q p =
        {| st := q; evs := []; out := Rejected (TypeError "run of null") |})
  /\ close q = {| st := q; evs := []; out := Rejected (TypeError "close of null") |}
  /\ (forall i, delete q (Some i) =
        {| st := q; evs := [];
           out := Rejected (VStr "Open queue database before starting queue") |})
  /\ (forall i, done q (Some i) = {| st := q; evs := []; out := ProcessExit |})
  /\ (forall i, has q i =
        {| st := q; evs := []; out := Rejected (TypeError "get of null") |})
  /\ (forall p, getJobIds q p =
        {| st := q; evs := [];
           out := Rejected (VStr "Open queue database before starting queue") |})
  /\ (forall p, getFirstJobId q p =
        {| st := q; evs := [];
           out := Uncaught (VStr "Open queue database before starting queue") |}).
Proof.
  intros Hq.
  assert (E : q = {| debug := false; empty := None; dbPath := dbPath q;
                     batchSize := batchSize q; queue := []; length := None;
                     db := None; opened := false; run := false |}).
  { unfold construct in Hq. destruct f as [f|]; [|discriminate].
    destruct (negb _ || _); [discriminate|].
    destruct (match size with VUndefined => VNum 10 | _ => size end);
      try discriminate.
    inversion Hq; subst. reflexivity. }
  rewrite E. repeat split.
Qed.

(** ** Stopping and starting *)

Lemma removeJob_promise_run (q : PQ) (i : Z) (q' : PQ) (s : settlement) :
  removeJob_promise q i = RemoveSettled q' s -> run q' = run q.
Proof.
  unfold removeJob_promise. destruct (db q) as [d|].
  - simpl. destruct (_ =? 0); intros H; inversion H; reflexivity.
  - intros H; inversion H; reflexivity.
Qed.

Lemma removeJob_run (q : PQ) (oi : option Z) :
  match removeJob q oi with
  | RemoveThrew q' _ => run q' = run q
  | RemoveSettled q' _ => run q' = run q
  end.
Proof.
  unfold removeJob. destruct oi as [i|].
  - destruct (splice_id i (queue q)) as [w|]; [|reflexivity].
    destruct (removeJob_promise (set_queue q w) i) as [q' e|q' s] eqn:E.
    + unfold removeJob_promise in E. destruct (db (set_queue q w)); [|discriminate].
      destruct (sql_delete d i) as [d' stmt].
      destruct (changes stmt =? 0); discriminate.
    + apply removeJob_promise_run in E. exact E.
  - destruct (queue q) as [|[j|] w]; try reflexivity.
    destruct (removeJob_promise (set_queue q w) (id j)) as [q' e|q' s] eqn:E.
    + unfold removeJob_promise in E. destruct (db (set_queue q w)); [|discriminate].
      destruct (sql_delete d (id j)) as [d' stmt].
      destruct (changes stmt =? 0); discriminate.
    + apply removeJob_promise_run in E. exact E.
Qed.

Lemma trigger_next_stopped (q : PQ) :
  run q = false ->
  trigger_next q = {| st := q; evs := []; out := Returned VUndefined |}.
Proof.
  intros H. apply trigger_next_noop. rewrite H. reflexivity.
Qed.

(** While [run] is false an operation other than [start] tells neither
    [next] nor [empty], and leaves [run] false. *)
Lemma exec_stopped (q : PQ) (o : op) :
  run q = false -> is_start o = false ->
  existsb is_consumption (evs (exec q o)) = false
  /\ run (st (exec q o)) = false.
Proof.
  intros Hr Ho. destruct o as [p|oi|oi| |]; simpl; try discriminate.
  - unfold add. destruct (db q) as [d|]; [|split; [reflexivity|exact Hr]].
    simpl. unfold on_add. simpl.
    destruct (truthy (empty q)); simpl; rewrite ?Hr; simpl;
      split; reflexivity || exact Hr.
  - unfold done. pose proof (removeJob_run q oi) as H.
    destruct (removeJob q oi) as [q' e|q' [v|e]]; simpl;
      try (split; [reflexivity|congruence]).
    rewrite trigger_next_stopped by (simpl; congruence).
    simpl. split; [reflexivity|congruence].
  - unfold delete. pose proof (removeJob_run q oi) as H.
    destruct (removeJob q oi) as [q' e|q' [v|e]]; simpl;
      split; reflexivity || congruence.
  - split; reflexivity.
Qed.

Lemma run_ops_stopped (ops : list op) :
  forall q : PQ,
    run q = false -> existsb is_start ops = false ->
    existsb is_consumption (seen (run_ops q ops)) = false
    /\ run (final (run_ops q ops)) = false.
Proof.
  induction ops as [|o rest IH]; intros q Hr Hs.
  - split; [reflexivity|exact Hr].
  - simpl in Hs. apply orb_false_elim in Hs. destruct Hs as [Ho Hrest].
    destruct (exec_stopped q o Hr Ho) as (He & Hr').
    simpl. destruct (exited (exec q o)).
    + simpl. split; assumption.
    + destruct (IH _ Hr' Hrest) as (He' & Hr'').
      simpl. rewrite existsb_app, He, He'. split; [reflexivity|exact Hr''].
Qed.

(** X2: after [stop()], whatever adds, [done]/[delete] calls and stops
    follow, no [next] and no [empty] is emitted until [start()] is called,
    and the queue stays stopped. *)
Theorem stop_suppresses_consumption (q : PQ) (ops : list op) :
  existsb is_start ops = false ->
  existsb is_consumption (seen (run_ops q (Stop :: ops))) = false
  /\ isStarted (final (run_ops q (Stop :: ops))) = false.
Proof.
  intros Hs.
  change (run_ops q (Stop :: ops))
    with {| final := final (run_ops (on_stop q) ops);
            seen := [] ++ seen (run_ops (on_stop q) ops);
            alive := alive (run_ops (on_stop q) ops) |}.
  simpl. apply (run_ops_stopped ops (on_stop q) eq_refl Hs).
Qed.

Lemma trigger_next_run (q : PQ) : run (st (trigger_next q)) = run q.
Proof.
  unfold trigger_next.
  destruct (negb (run q) || truthy (empty q)); [reflexivity|].
  destruct (Nat.eqb (List.length (queue q)) 0 && length_not_zero (length q)).
  - pose proof (hydrateQueue_frame q (batchSize q)) as H.
    destruct (hydrateQueue q (batchSize q)) as [q' [v|e]]; simpl in *; apply H.
  - destruct (negb (Nat.eqb (List.length (queue q)) 0)); [reflexivity|].
    unfold on_empty. simpl. destruct (db q); reflexivity.
Qed.

Lemma trigger_next_db (q : PQ) (d : database) :
  db q = Some d ->
  exists d', db (st (trigger_next q)) = Some d'
             /\ rows d' = rows d /\ seq d' = seq d /\ counter d' = counter d.
Proof.
  intros Hd. unfold trigger_next.
  destruct (negb (run q) || truthy (empty q));
    [exists d; repeat split; exact Hd|].
  destruct (Nat.eqb (List.length (queue q)) 0 && length_not_zero (length q)).
  - pose proof (hydrateQueue_frame q (batchSize q)) as (_ & H & _).
    destruct (hydrateQueue q (batchSize q)) as [q' [v|e]]; simpl in *;
      exists d; rewrite H; repeat split; exact Hd.
  - destruct (negb (Nat.eqb (List.length (queue q)) 0));
      [exists d; repeat split; exact Hd|].
    unfold on_empty. simpl. rewrite Hd. simpl.
    exists (sql_vacuum d). repeat split.
Qed.

(** X3: [start()] on an open queue that is already running, in
    particular a second [start()] in a row, emits nothing and changes
    nothing. *)
Theorem start_twice_is_start_once (q : PQ) (d : database) :
  db q = Some d ->
  start (st (start q)) =
    {| st := st (start q); evs := []; out := Returned VUndefined |}.
Proof.
  intros Hd.
  assert (Hrun : run (st (start q)) = true).
  { unfold start, on_start. rewrite Hd. destruct (run q) eqn:Er; [exact Er|].
    rewrite trigger_next_run. reflexivity. }
  assert (Hdb : exists d', db (st (start q)) = Some d').
  { unfold start, on_start. rewrite Hd. destruct (run q).
    - exists d. exact Hd.
    - destruct (trigger_next_db (set_run q true) d Hd) as (d' & H & _).
      exists d'. exact H. }
  destruct Hdb as (d' & Hd').
  unfold start at 1, on_start. rewrite Hd', Hrun. reflexivity.
Qed.

(** ** [open()] *)

Lemma batch_empty_iff (n : Z) (l : list row) :
  1 <= n -> Nat.eqb (List.length (limit n (order_by_id l))) 0 =
            match l with [] => true | _ :: _ => false end.
Proof.
  intros Hn. destruct l as [|x l].
  { unfold limit. simpl. destruct (n <? 0); [reflexivity|].
    rewrite firstn_nil. reflexivity. }
  assert (Hne : order_by_id (x :: l) <> []).
  { intros E. apply order_by_id_nil in E. discriminate. }
  pose proof (limit_nonempty n _ Hn Hne) as H.
  destruct (limit n (order_by_id (x :: l))); [contradiction|reflexivity].
Qed.

Lemma open_fulfilled (disk : database) (q : PQ) (v : jsval) :
  out (open disk q) = Fulfilled v ->
  open disk q =
    {| st := on_open
               (set_empty
                  (set_queue (set_length (set_db q (Some (sql_schema disk)))
                                (Some (Z.of_nat (List.length (rows disk)))))
                     (map parse_row (sql_select_batch (sql_schema disk) (batchSize q))))
                  (Some (Nat.eqb
                           (List.length
                              (sql_select_batch (sql_schema disk) (batchSize q))) 0)));
       evs := [EvOpen];
       out := Fulfilled
                (VArr (map row_value
                         (sql_select_batch (sql_schema disk) (batchSize q)))) |}
  /\ forallb parses (sql_select_batch (sql_schema disk) (batchSize q)) = true.
Proof.
  intros Hopen. pose proof (open_settles disk q v Hopen) as Hs. revert Hopen.
  unfold open, countQueue. rewrite Hs. simpl. unfold hydrateQueue. simpl.
  destruct (forallb parses (sql_select_batch (sql_schema disk) (batchSize q)));
    [|discriminate].
  simpl. intros _. rewrite length_map. split; reflexivity.
Qed.

(** X4: a fulfilled [open()] establishes the state from the table and
    from nothing else, on a queue whose batch size is an integer not below
    1.  The queue is open, [getLength()] is the number of rows (whatever
    the counter row held), [isEmpty()] is true exactly when the table has
    no row, the window holds the first rows in id order, as many as the
    batch size allows, [run] is as it was, and the promise is fulfilled
    with the rows loaded.  ([open()] is fulfilled in sloppy code only.) *)
Theorem open_establishes_state (q : PQ) (disk : database) (v : jsval) :
  1 <= batchSize q ->
  out (open disk q) = Fulfilled v ->
  isOpen (st (open disk q)) = true
  /\ getLength (st (open disk q)) = VNum (Z.of_nat (List.length (rows disk)))
  /\ isEmpty (st (open disk q)) =
       Returned (VBool match rows disk with [] => true | _ :: _ => false end)
  /\ queue (st (open disk q)) =
       map parse_row (limit (batchSize q) (order_by_id (rows disk)))
  /\ List.length (queue (st (open disk q))) =
       Nat.min (Z.to_nat (batchSize q)) (List.length (rows disk))
  /\ isStarted (st (open disk q)) = isStarted q
  /\ evs (open disk q) = [EvOpen]
  /\ v = VArr (map row_value (limit (batchSize q) (order_by_id (rows disk))))
  /\ strict = false.
Proof.
  intros Hsize Hopen.
  pose proof (open_settles disk q v Hopen) as Hsloppy.
  destruct (open_fulfilled disk q v Hopen) as (E & _).
  rewrite E in Hopen. rewrite E. simpl in *.
  unfold sql_select_batch in *. simpl in *.
  split; [reflexivity|]. split; [reflexivity|].
  split; [unfold isEmpty; simpl; rewrite (batch_empty_iff _ _ Hsize); reflexivity|].
  split; [reflexivity|].
  split.
  { rewrite length_map. unfold limit.
    destruct (batchSize q <? 0) eqn:En; [apply Z.ltb_lt in En; lia|].
    rewrite length_firstn, order_by_id_length. reflexivity. }
  split; [reflexivity|]. split; [reflexivity|].
  split; [congruence|exact Hsloppy].
Qed.

(** X5: in sloppy code, when a row of the first batch is not JSON,
    [open()] rejects with the SyntaxError and emits nothing; the queue is
    not marked open and its emptiness stays undefined, although the
    database handle and the count are already set. *)
Theorem open_rejects_on_bad_row (q : PQ) (disk : database) :
  strict = false ->
  forallb parses (limit (batchSize q) (order_by_id (rows disk))) = false ->
  out (open disk q) = Rejected SyntaxError
  /\ evs (open disk q) = []
  /\ isOpen (st (open disk q)) = isOpen q
  /\ empty (st (open disk q)) = empty q
  /\ getLength (st (open disk q)) = VNum (Z.of_nat (List.length (rows disk)))
  /\ getSqlite3 (st (open disk q)) = inl (sql_schema disk).
Proof.
  intros Hs Hp. unfold open, countQueue. rewrite Hs. simpl.
  unfold hydrateQueue. simpl.
  unfold sql_select_batch. simpl. rewrite Hp. simpl. repeat split.
Qed.

(** X18: in strict code [open()] never settles.  The callback of
    [countQueue] assigns the count and then reads [this.length] with
    [this] undefined: the TypeError is thrown inside the callback, the
    promise of [open()] is neither fulfilled nor rejected, no ['open']
    event is emitted, the window is not loaded and the queue is not marked
    open, whatever the store holds; the database handle and the count are
    already set. *)
Theorem open_in_strict_code_never_settles (q : PQ) (disk : database) :
  strict = true ->
  open disk q =
    {| st := set_length (set_db q (Some (sql_schema disk)))
               (Some (Z.of_nat (List.length (rows disk))));
       evs := [];
       out := Uncaught (TypeError "length of undefined") |}
  /\ isOpen (st (open disk q)) = isOpen q
  /\ queue (st (open disk q)) = queue q
  /\ empty (st (open disk q)) = empty q
  /\ getLength (st (open disk q)) = VNum (Z.of_nat (List.length (rows disk)))
  /\ (forall v, out (open disk q) <> Fulfilled v)
  /\ (forall e, out (open disk q) <> Rejected e).
Proof.
  intros Hs. unfold open, countQueue. rewrite Hs. simpl.
  repeat split; discriminate.
Qed.

(** ** The window is bounded *)

Lemma splice_id_length (i : Z) (w w' : list (option Job)) :
  splice_id i w = Some w' -> (List.length w' <= List.length w)%nat.
Proof.
  revert w'. induction w as [|[j|] w IH]; simpl; intros w' H.
  - inversion H; subst. simpl. lia.
  - destruct (id j =? i).
    + inversion H; subst. lia.
    + destruct (splice_id i w) as [w1|]; [|discriminate].
      inversion H; subst. specialize (IH _ eq_refl). simpl. lia.
  - discriminate.
Qed.

Lemma hydrateQueue_fits (n : Z) (q : PQ) (size : Z) :
  window_fits n q -> window_fits n (fst (hydrateQueue q size)).
Proof.
  intros (Hb & Hn & Hw). unfold hydrateQueue. destruct (db q) as [d|].
  - assert (H : Z.of_nat (List.length (map parse_row (sql_select_batch d (batchSize q))))
                <= n).
    { rewrite length_map, Hb. apply limit_length, Hn. }
    destruct (forallb parses (sql_select_batch d (batchSize q))); simpl;
      repeat split; assumption.
  - simpl. repeat split; assumption.
Qed.

Lemma trigger_next_fits (n : Z) (q : PQ) :
  window_fits n q -> window_fits n (st (trigger_next q)).
Proof.
  intros Hf. unfold trigger_next.
  destruct (negb (run q) || truthy (empty q)); [exact Hf|].
  destruct (Nat.eqb (List.length (queue q)) 0 && length_not_zero (length q)).
  - pose proof (hydrateQueue_fits n q (batchSize q) Hf) as H.
    destruct (hydrateQueue q (batchSize q)) as [q' [v|e]]; exact H.
  - destruct (negb (Nat.eqb (List.length (queue q)) 0)); [exact Hf|].
    unfold on_empty. simpl. destruct (db q); exact Hf.
Qed.

Lemma removeJob_promise_fits (n : Z) (q : PQ) (i : Z) :
  window_fits n q ->
  match removeJob_promise q i with
  | RemoveThrew q' _ => window_fits n q'
  | RemoveSettled q' _ => window_fits n q'
  end.
Proof.
  intros Hf. unfold removeJob_promise. destruct (db q) as [d|]; [|exact Hf].
  simpl. destruct (_ =? 0); exact Hf.
Qed.

Lemma removeJob_fits (n : Z) (q : PQ) (oi : option Z) :
  window_fits n q ->
  match removeJob q oi with
  | RemoveThrew q' _ => window_fits n q'
  | RemoveSettled q' _ => window_fits n q'
  end.
Proof.
  intros Hf. pose proof Hf as (Hb & Hn & Hw). unfold removeJob.
  destruct oi as [i|].
  - destruct (splice_id i (queue q)) as [w|] eqn:E; [|exact Hf].
    apply removeJob_promise_fits. apply splice_id_length in E.
    repeat split; simpl; try assumption. lia.
  - destruct (queue q) as [|[j|] w] eqn:E; [exact Hf| |].
    + apply removeJob_promise_fits.
      repeat split; simpl in *; try assumption. lia.
    + repeat split; simpl in *; try assumption. lia.
Qed.

Lemma exec_fits (n : Z) (q : PQ) (o : op) :
  window_fits n q -> window_fits n (st (exec q o)).
Proof.
  intros Hf. destruct o as [p|oi|oi| |]; simpl.
  - unfold add. destruct (db q) as [d|]; [|exact Hf]. simpl.
    match goal with |- context [on_add ?x] => set (q2 := x) end.
    assert (H2 : window_fits n (st (on_add q2))).
    { unfold on_add. destruct (truthy (empty q2)); [|exact Hf].
      simpl. destruct (run q); [|exact Hf].
      apply trigger_next_fits. exact Hf. }
    destruct (out (on_add q2)); exact H2.
  - unfold done. pose proof (removeJob_fits n q oi Hf) as H.
    destruct (removeJob q oi) as [q' e|q' [v|e]]; try exact H.
    match goal with |- context [trigger_next ?x] => set (q1 := x) end.
    assert (H1 : window_fits n (st (trigger_next q1))).
    { apply trigger_next_fits. exact H. }
    cbv zeta. destruct (out (trigger_next q1)); exact H1.
  - unfold delete. pose proof (removeJob_fits n q oi Hf) as H.
    destruct (removeJob q oi) as [q' e|q' [v|e]]; exact H.
  - unfold start, on_start. destruct (db q); [|exact Hf].
    destruct (run q); [exact Hf|]. apply trigger_next_fits. exact Hf.
  - exact Hf.
Qed.

Lemma run_ops_fits (n : Z) (ops : list op) :
  forall q : PQ, window_fits n q -> window_fits n (final (run_ops q ops)).
Proof.
  induction ops as [|o rest IH]; intros q Hf; [exact Hf|].
  simpl. pose proof (exec_fits n q o Hf) as H.
  destruct (exited (exec q o)); [exact H|]. apply IH, H.
Qed.

Lemma open_fits (disk : database) (q : PQ) :
  0 <= batchSize q -> queue q = [] ->
  window_fits (batchSize q) (st (open disk q)).
Proof.
  intros Hb Hw. unfold open, countQueue. destruct strict; simpl.
  { unfold window_fits. simpl. rewrite Hw. simpl. repeat split; assumption. }
  unfold hydrateQueue. simpl.
  assert (H : Z.of_nat (List.length
                (map parse_row (sql_select_batch (sql_schema disk) (batchSize q))))
              <= batchSize q).
  { rewrite length_map. apply limit_length, Hb. }
  destruct (forallb parses (sql_select_batch (sql_schema disk) (batchSize q)));
    simpl; repeat split; assumption.
Qed.

(** X6: the window never outgrows the batch size.  Whatever the store
    holds and whatever operations follow [open()], also when [open()] or
    an operation fails, the in-memory window holds at most [batchSize]
    entries and the batch size is the one given to the constructor. *)
Theorem window_never_exceeds_batchSize
  (f : option string) (size : jsval) (q : PQ) (disk : database) (ops : list op) :
  construct f size = inl q ->
  Z.of_nat (List.length (queue (final (run_ops (st (open disk q)) ops))))
    <= batchSize q
  /\ batchSize (final (run_ops (st (open disk q)) ops)) = batchSize q.
Proof.
  intros Hq. apply construct_batchSize in Hq.
  destruct Hq as (Hsize & _ & _ & Hw & _).
  assert (Hb : 0 <= batchSize q) by lia.
  destruct (run_ops_fits (batchSize q) ops _ (open_fits disk q Hb Hw))
    as (H1 & _ & H3).
  split; assumption.
Qed.

(** ** Searching the table *)

Lemma filter_strict (f : row -> bool) (l : list row) :
  StronglySorted id_lt l -> StronglySorted id_lt (filter f l).
Proof.
  induction 1 as [|x l Hs IH Hx]; simpl; [constructor|].
  destruct (f x); [|exact IH].
  constructor; [exact IH|].
  rewrite Forall_forall in *. intros y Hy. apply Hx.
  apply filter_In in Hy. apply Hy.
Qed.

Lemma strict_ids_ascending (l : list row) :
  StronglySorted id_lt l -> ascending (map row_id l).
Proof.
  unfold ascending. induction 1 as [|x l Hs IH Hx]; simpl; constructor.
  - exact IH.
  - rewrite Forall_forall in *. intros i Hi.
    apply in_map_iff in Hi. destruct Hi as (r & <- & Hr). apply Hx, Hr.
Qed.

Lemma sql_search_In (d : database) (text : string) (i : Z) :
  In i (sql_search d text) <->
  exists r, In r (rows d) /\ row_id r = i /\ row_job r = text.
Proof.
  unfold sql_search. rewrite in_map_iff. split.
  - intros (r & Hi & Hr). apply filter_In in Hr. destruct Hr as (Hr & Hm).
    apply (proj1 (order_by_id_In _ _)) in Hr.
    apply (proj1 (String.eqb_eq _ _)) in Hm.
    exists r. repeat split; assumption.
  - intros (r & Hr & Hi & Hm). exists r. split; [exact Hi|].
    apply filter_In. split; [apply order_by_id_In, Hr|].
    apply String.eqb_eq, Hm.
Qed.

Lemma map_js_number_safe (l : list Z) :
  (forall i, In i l -> safe_id i) -> map js_number l = l.
Proof.
  induction l as [|x l IH]; simpl; intros H; [reflexivity|].
  rewrite (js_number_safe x (H x (or_introl eq_refl))), IH; [reflexivity|].
  intros i Hi. apply H. right. exact Hi.
Qed.

Lemma sql_search_safe (d : database) (text : string) :
  safe_store d -> map js_number (sql_search d text) = sql_search d text.
Proof.
  intros Hs. apply map_js_number_safe. intros i Hi.
  apply sql_search_In in Hi. destruct Hi as (r & Hr & <- & _). apply Hs, Hr.
Qed.

(** X7: on an open queue [getJobIds(job)] is fulfilled with the ids, as
    JavaScript numbers, of exactly the stored rows whose text is the
    serialization of [job], in strictly ascending order of the rows; it
    emits nothing and changes nothing.  When no stored id is beyond
    [Number.MAX_SAFE_INTEGER] the numbers are the ids themselves. *)
Theorem getJobIds_lists_matching_rows (q : PQ) (d : database) (p : payload) :
  db q = Some d ->
  NoDup (map row_id (rows d)) ->
  getJobIds q p =
    {| st := q; evs := [];
       out := Fulfilled
                (VArr (map VNum (map js_number (sql_search d (stringify p))))) |}
  /\ ascending (sql_search d (stringify p))
  /\ (forall i, In i (sql_search d (stringify p)) <->
                exists r, In r (rows d) /\ row_id r = i
                          /\ row_job r = stringify p)
  /\ (safe_store d ->
      map js_number (sql_search d (stringify p)) = sql_search d (stringify p)).
Proof.
  intros Hd Hkey. split; [|split; [|split]].
  - unfold getJobIds, searchQueue. rewrite Hd. reflexivity.
  - unfold sql_search. apply strict_ids_ascending, filter_strict.
    apply order_by_id_strict, Hkey.
  - intros i. apply sql_search_In.
  - apply sql_search_safe.
Qed.

Lemma on_add_db (q : PQ) (d : database) :
  db q = Some d ->
  exists d', db (st (on_add q)) = Some d' /\ rows d' = rows d.
Proof.
  intros Hd. unfold on_add. destruct (truthy (empty q)).
  - simpl. destruct (run q).
    + destruct (trigger_next_db (set_empty q (Some false)) d Hd) as (d' & H & Hr & _).
      exists d'. split; assumption.
    + exists d. split; [exact Hd|reflexivity].
  - exists d. split; [exact Hd|reflexivity].
Qed.

Lemma add_db (q : PQ) (d : database) (p : payload) :
  db q = Some d ->
  exists d', db (st (add q p)) = Some d'
             /\ rows d' = rows d ++ [new_row d p].
Proof.
  intros Hd. rewrite (add_eq q d p Hd).
  destruct (on_add_db (inserted q d p) (fst (sql_insert d (stringify p))) eq_refl)
    as (d' & H & Hr).
  exists d'. split; [|exact Hr].
  destruct (out (on_add (inserted q d p))); exact H.
Qed.

Lemma sql_search_snoc (d d' : database) (p : payload) :
  rows d' = rows d ++ [new_row d p] ->
  sql_search d' (stringify p) = sql_search d (stringify p) ++ [next_rowid d].
Proof.
  intros Hr. unfold sql_search. rewrite Hr, order_by_id_snoc.
  - rewrite filter_app, map_app. simpl. rewrite String.eqb_refl. reflexivity.
  - intros r Hin. apply next_rowid_fresh in Hin. simpl. lia.
Qed.

(** X8: what [add] stores, [getJobIds] finds.  After [add(job)] on an
    open queue, [getJobIds(job)] lists the ids it listed before followed
    by one new id, which is above every id stored before (the ids as
    JavaScript numbers: themselves up to [Number.MAX_SAFE_INTEGER]). *)
Theorem add_then_getJobIds (q : PQ) (d : database) (p : payload) :
  db q = Some d ->
  out (getJobIds (st (add q p)) p) =
    Fulfilled (VArr (map VNum (map js_number
                                 (sql_search d (stringify p) ++ [next_rowid d]))))
  /\ out (getJobIds q p) =
       Fulfilled (VArr (map VNum (map js_number (sql_search d (stringify p)))))
  /\ (forall r, In r (rows d) -> row_id r < next_rowid d)
  /\ (safe_store d -> next_rowid d <= max_safe_integer ->
      map js_number (sql_search d (stringify p) ++ [next_rowid d]) =
        sql_search d (stringify p) ++ [next_rowid d]).
Proof.
  intros Hd. destruct (add_db q d p Hd) as (d' & Hd' & Hr).
  split; [|split; [|split]].
  - unfold getJobIds, searchQueue. rewrite Hd'. simpl.
    rewrite (sql_search_snoc d d' p Hr). reflexivity.
  - unfold getJobIds, searchQueue. rewrite Hd. reflexivity.
  - intros r. apply next_rowid_fresh.
  - intros Hs Hfit. rewrite map_app, (sql_search_safe d _ Hs). simpl.
    rewrite js_number_safe; [reflexivity|].
    unfold safe_id. pose proof (next_rowid_positive d). lia.
Qed.

(** ** What holds in every reachable state *)

Lemma windowed_fifo_nil (q : PQ) (d : database) (wrows rest : list row) :
  windowed q d wrows rest -> fifo_pre q [].
Proof.
  intros W. exists d, wrows, rest. split; [exact W|]. split.
  - constructor; [constructor| |reflexivity]. intros e [].
  - intros e r [].
Qed.

Lemma fifo_inv_windowed (q : PQ) (es : list Z) :
  fifo_inv q es -> exists d wrows rest, windowed q d wrows rest.
Proof.
  intros (d & wrows & rest & W & _). exists d, wrows, rest. exact W.
Qed.

Lemma step_ok_windowed (r : result) :
  step_ok [] r -> exited r = false ->
  exists d wrows rest, windowed (st r) d wrows rest.
Proof.
  intros (_ & _ & I) Hx. apply (fifo_inv_windowed _ _ (I Hx)).
Qed.

Lemma windowed_set_run (q : PQ) (d : database) (wrows rest : list row) (b : bool) :
  windowed q d wrows rest -> windowed (set_run q b) d wrows rest.
Proof.
  intros [[[Hdb Hkey Hcount Hsize] He] Hs Hsp Hq Hp Hsafe].
  constructor; try assumption.
  split; [constructor; assumption|exact He].
Qed.

Lemma done_hit_windowed (q : PQ) (d : database) (wrows rest : list row)
  (i : Z) (oi : option Z) :
  windowed q d wrows rest ->
  filter (has_id i) (rows d) <> [] ->
  removeJob q oi = RemoveSettled (deleted q d wrows i) (Fulfil (VNum i)) ->
  exited (done q oi) = false ->
  exists d' wrows' rest', windowed (st (done q oi)) d' wrows' rest'.
Proof.
  intros W Hhit Hrm. unfold done. rewrite Hrm.
  set (q1 := set_length (deleted q d wrows i)
               (js_decr (length (deleted q d wrows i)))).
  pose proof (windowed_delete_hit q d wrows rest i W Hhit) as W1.
  fold q1 in W1.
  destruct (trigger_next_fifo q1 [] (windowed_fifo_nil _ _ _ _ W1)) as (Hok & [E|E]).
  - cbv zeta. rewrite E. intros Hx. apply (step_ok_windowed _ Hok Hx).
  - cbv zeta. rewrite E. discriminate.
Qed.

Lemma done_windowed (q : PQ) (d : database) (wrows rest : list row) (oi : option Z) :
  windowed q d wrows rest ->
  exited (done q oi) = false ->
  exists d' wrows' rest', windowed (st (done q oi)) d' wrows' rest'.
Proof.
  intros W. destruct oi as [i|].
  - pose proof (removeJob_by_id q d wrows rest i W) as Hrm.
    unfold delete_settles in Hrm.
    destruct (filter (has_id i) (rows d)) as [|x l] eqn:Ef.
    + unfold done. rewrite Hrm. discriminate.
    + apply (done_hit_windowed q d wrows rest i (Some i) W); [|exact Hrm].
      rewrite Ef. discriminate.
  - destruct wrows as [|r0 w'].
    + pose proof (w_queue _ _ _ _ W) as Hq. simpl in Hq.
      unfold done. rewrite (removeJob_nothing q Hq). intros _.
      exists d, [], rest. exact W.
    + apply (done_hit_windowed q d (r0 :: w') rest (row_id r0) None W).
      * apply (head_hit q d r0 w' rest W).
      * apply (removeJob_head q d r0 w' rest W).
Qed.

Lemma exec_windowed (q : PQ) (d : database) (wrows rest : list row) (o : op) :
  windowed q d wrows rest ->
  fits_number q o = true ->
  exited (exec q o) = false ->
  exists d' wrows' rest', windowed (st (exec q o)) d' wrows' rest'.
Proof.
  intros W Hfit Hx.
  pose proof (fifo_pre_inv q [] (windowed_fifo_nil q d wrows rest W)) as Hinv.
  destruct o as [p|oi|oi| |]; cbn [exec] in *.
  - apply (step_ok_windowed _ (add_fifo q [] p Hinv Hfit) Hx).
  - apply (done_windowed q d wrows rest oi W Hx).
  - apply (step_ok_windowed _ (delete_fifo q [] oi Hinv) Hx).
  - apply (step_ok_windowed _ (start_fifo q [] Hinv) Hx).
  - exists d, wrows, rest. apply windowed_set_run, W.
Qed.

Lemma run_ops_windowed (ops : list op) :
  forall (q : PQ) (d : database) (wrows rest : list row),
    windowed q d wrows rest ->
    fits_number_run q ops = true ->
    alive (run_ops q ops) = true ->
    exists d' wrows' rest', windowed (final (run_ops q ops)) d' wrows' rest'.
Proof.
  induction ops as [|o ops IH]; intros q d wrows rest W Hfit Hal.
  - exists d, wrows, rest. exact W.
  - cbn [fits_number_run] in Hfit. apply andb_prop in Hfit.
    destruct Hfit as [Hfit Hfits]. cbn [run_ops] in *.
    destruct (exited (exec q o)) eqn:Ex; [discriminate|]. simpl in *.
    destruct (exec_windowed q d wrows rest o W Hfit Ex) as (d1 & w1 & r1 & W1).
    apply (IH _ d1 w1 r1 W1 Hfits Hal).
Qed.

Lemma reachable_windowed (q : PQ) :
  reachable q -> exists d wrows rest, windowed q d wrows rest.
Proof.
  intros (q0 & disk & v & ops & Hsize & Hkey & Hseq & Hsafe & Hopen
          & Hfit & Hal & ->).
  destruct (fifo_inv_windowed _ _ (open_fifo disk q0 v Hkey Hseq Hsafe Hsize Hopen))
    as (d & w & r & W).
  apply (run_ops_windowed ops _ d w r W Hfit Hal).
Qed.

Lemma reachable_windowed_db (q : PQ) (d : database) :
  reachable q -> db q = Some d -> exists wrows rest, windowed q d wrows rest.
Proof.
  intros Hr Hd. destruct (reachable_windowed q Hr) as (d' & w & r & W).
  assert (d' = d).
  { pose proof (co_db _ _ (proj1 (w_coherent _ _ _ _ W))) as H. congruence. }
  subst d'. exists w, r. exact W.
Qed.




(** ** Removing by id *)



(** X11: removing a stored job.  In a reachable state [delete(id)] for a
    stored id is fulfilled with the id, emits [delete] with it and no
    [next], lowers the count by one, and takes exactly that job out of the
    table and out of the window; [run] is as it was. *)
Theorem delete_removes_exactly_that_job (q : PQ) (d : database) (i : Z) :
  reachable q -> db q = Some d -> In i (map row_id (rows d)) ->
  out (delete q (Some i)) = Fulfilled (VNum i)
  /\ evs (delete q (Some i)) = [EvDelete (Some i)]
  /\ getLength (st (delete q (Some i))) =
       VNum (Z.of_nat (List.length (rows d)) - 1)
  /\ option_map rows (db (st (delete q (Some i)))) =
       Some (filter (keeps i) (rows d))
  /\ (forall r, In r (filter (keeps i) (rows d)) <->
                In r (rows d) /\ row_id r <> i)
  /\ splice_id i (queue q) = Some (queue (st (delete q (Some i))))
  /\ isStarted (st (delete q (Some i))) = isStarted q.
Proof.
  intros Hr Hd Hi. destruct (reachable_windowed_db q d Hr Hd) as (wrows & rest & W).
  pose proof (removeJob_by_id q d wrows rest i W) as Hrm.
  pose proof (co_key _ _ (proj1 (w_coherent _ _ _ _ W))) as Hkey.
  pose proof (co_count _ _ (proj1 (w_coherent _ _ _ _ W))) as Hcount.
  pose proof (has_id_present i (rows d) Hkey Hi) as H1.
  unfold delete_settles in Hrm.
  destruct (filter (has_id i) (rows d)) as [|x l] eqn:Ef; [discriminate|].
  unfold delete. rewrite Hrm. simpl.
  split; [reflexivity|]. split; [reflexivity|].
  split; [unfold getLength; simpl; rewrite Hcount; reflexivity|].
  split; [reflexivity|]. split; [|split; [|reflexivity]].
  - intros r. rewrite filter_In. unfold keeps, has_id.
    rewrite negb_true_iff, Z.eqb_neq. reflexivity.
  - rewrite (w_queue _ _ _ _ W).
    apply (splice_id_parsed i wrows (windowed_nodup q d wrows rest W)
             (w_parses _ _ _ _ W)
             (fun r Hin => windowed_safe q d wrows rest r W Hin)).
Qed.

(** ** [has] and [getFirstJobId] in reachable states *)







(** ** Closing and opening again *)

(** X14: the count survives a restart.  When a reachable queue on a file
    is closed and opened again, [getLength()] is what it was before, and
    [isEmpty()] is true exactly when that count is 0.  A queue on the
    in-memory database (empty file name) finds nothing when it is opened
    again: [getLength()] is 0 and [isEmpty()] is true. *)
Theorem reopen_recovers_count (q : PQ) (d : database) (v : jsval) :
  reachable q -> db q = Some d ->
  out (open (left_at_path q d) (st (close q))) = Fulfilled v ->
  getLength q = VNum (Z.of_nat (List.length (rows d)))
  /\ (dbPath q <> ":memory:"%string ->
      getLength (st (open (left_at_path q d) (st (close q)))) = getLength q
      /\ isEmpty (st (open (left_at_path q d) (st (close q)))) =
           Returned (VBool (Z.of_nat (List.length (rows d)) =? 0)))
  /\ (dbPath q = ":memory:"%string ->
      getLength (st (open (left_at_path q d) (st (close q)))) = VNum 0
      /\ isEmpty (st (open (left_at_path q d) (st (close q)))) =
           Returned (VBool true)).
Proof.
  intros Hr Hd Hopen.
  destruct (reachable_windowed_db q d Hr Hd) as (wrows & rest & W).
  pose proof (w_coherent _ _ _ _ W) as [[_ _ Hcount Hsize] _].
  assert (Hl : getLength q = VNum (Z.of_nat (List.length (rows d)))).
  { unfold getLength. rewrite Hcount. reflexivity. }
  assert (Hb : 1 <= batchSize (st (close q))).
  { unfold close. rewrite Hd. exact Hsize. }
  assert (Hgen : getLength (st (open (left_at_path q d) (st (close q))))
                 = VNum (Z.of_nat (List.length (rows (left_at_path q d))))
                 /\ isEmpty (st (open (left_at_path q d) (st (close q)))) =
                      Returned (VBool match rows (left_at_path q d) with
                                      | [] => true
                                      | _ :: _ => false
                                      end)).
  { split.
    - unfold getLength. rewrite (open_length _ _ v Hopen). reflexivity.
    - destruct (open_fulfilled _ _ v Hopen) as (E & _).
      rewrite E. unfold isEmpty. simpl. unfold sql_select_batch. simpl.
      rewrite (batch_empty_iff _ _ Hb). reflexivity. }
  destruct Hgen as [Hg He].
  split; [exact Hl|]. unfold left_at_path in *.
  destruct (String.eqb (dbPath q) ":memory:") eqn:Em.
  - apply String.eqb_eq in Em. split; [intros Hn; contradiction|].
    intros _. split; [exact Hg|exact He].
  - apply String.eqb_neq in Em. split; [|intros Hn; contradiction].
    intros _. split; [rewrite Hl; exact Hg|].
    rewrite He. destruct (rows d); reflexivity.
Qed.

(** ** The three counts *)

Lemma tallied_insert (d : database) (text : string) :
  tallied d -> tallied (fst (sql_insert d text)).
Proof.
  unfold tallied. simpl. intros H. rewrite H, length_app. simpl List.length. lia.
Qed.

Lemma tallied_delete (d : database) (i : Z) :
  tallied d -> tallied (fst (sql_delete d i)).
Proof.
  unfold tallied. simpl. intros H. rewrite H.
  pose proof (filter_has_keeps_length i (rows d)). lia.
Qed.

Lemma trigger_next_tallied (q : PQ) (d : database) :
  db q = Some d -> tallied d ->
  exists d', db (st (trigger_next q)) = Some d' /\ tallied d'.
Proof.
  intros Hd Ht. destruct (trigger_next_db q d Hd) as (d' & H & Hr & _ & Hc).
  exists d'. split; [exact H|]. unfold tallied in *. congruence.
Qed.

Lemma exec_tallied (q : PQ) (d : database) (o : op) :
  db q = Some d -> tallied d ->
  exists d', db (st (exec q o)) = Some d' /\ tallied d'.
Proof.
  intros Hd Ht. destruct o as [p|oi|oi| |]; simpl.
  - rewrite (add_eq q d p Hd).
    assert (H : exists d', db (st (on_add (inserted q d p))) = Some d' /\ tallied d').
    { unfold on_add. destruct (truthy (empty (inserted q d p))).
      - simpl. destruct (run q).
        + apply (trigger_next_tallied (set_empty (inserted q d p) (Some false))
                   (fst (sql_insert d (stringify p))) eq_refl).
          apply tallied_insert, Ht.
        + eexists. split; [reflexivity|]. apply tallied_insert, Ht.
      - eexists. split; [reflexivity|]. apply tallied_insert, Ht. }
    destruct (out (on_add (inserted q d p))); exact H.
  - unfold done. destruct (removeJob q oi) as [q' e|q' s] eqn:E.
    + apply removeJob_threw in E. destruct E as [w ->].
      exists d. split; [exact Hd|exact Ht].
    + destruct (removeJob_settled q d oi q' s Hd E)
        as (i & w & -> & [[-> _]|[[e ->] _]]).
      * match goal with |- context [trigger_next ?x] => set (q1 := x) end.
        assert (H : exists d', db (st (trigger_next q1)) = Some d' /\ tallied d').
        { apply (trigger_next_tallied q1 (fst (sql_delete d i)) eq_refl).
          apply tallied_delete, Ht. }
        cbv zeta. destruct (out (trigger_next q1)); exact H.
      * eexists. split; [reflexivity|]. apply tallied_delete, Ht.
  - unfold delete. destruct (removeJob q oi) as [q' e|q' s] eqn:E.
    + apply removeJob_threw in E. destruct E as [w ->].
      exists d. split; [exact Hd|exact Ht].
    + destruct (removeJob_settled q d oi q' s Hd E)
        as (i & w & -> & [[-> _]|[[e ->] _]]);
        (eexists; split; [reflexivity|]; apply tallied_delete, Ht).
  - unfold start, on_start. rewrite Hd. destruct (run q).
    + exists d. split; [exact Hd|exact Ht].
    + apply (trigger_next_tallied (set_run q true) d Hd Ht).
  - exists d. split; [exact Hd|exact Ht].
Qed.

Lemma run_ops_tallied (ops : list op) :
  forall (q : PQ) (d : database),
    db q = Some d -> tallied d ->
    exists d', db (final (run_ops q ops)) = Some d' /\ tallied d'.
Proof.
  induction ops as [|o ops IH]; simpl; intros q d Hd Ht.
  - exists d. split; assumption.
  - destruct (exec_tallied q d o Hd Ht) as (d1 & Hd1 & Ht1).
    destruct (exited (exec q o)).
    + exists d1. split; assumption.
    + apply (IH _ d1 Hd1 Ht1).
Qed.

(** X15: the three counts are one number.  In every reachable state the
    count kept in memory ([getLength()]), the counter row that the insert
    and delete triggers keep in the database, and the number of rows of
    the job table are equal. *)
Theorem counts_agree (q : PQ) :
  reachable q ->
  exists d,
    db q = Some d
    /\ getLength q = VNum (sql_count d)
    /\ sql_count d = Z.of_nat (List.length (rows d)).
Proof.
  intros Hr. destruct (reachable_windowed q Hr) as (d & wrows & rest & W).
  pose proof (w_coherent _ _ _ _ W) as [[Hdb _ Hcount _] _].
  destruct Hr as (q0 & disk & v & ops & _ & _ & _ & _ & Hopen & _ & _ & ->).
  destruct (open_fulfilled disk q0 v Hopen) as (E & _).
  destruct (run_ops_tallied ops (st (open disk q0)) (sql_schema disk))
    as (d' & Hd' & Ht).
  - rewrite E. reflexivity.
  - reflexivity.
  - assert (d' = d) by congruence. subst d'.
    exists d. split; [exact Hdb|]. unfold tallied in Ht. unfold sql_count.
    split; [|exact Ht]. unfold getLength. rewrite Hcount, Ht. reflexivity.
Qed.

(** ** Draining the queue *)








(** ** Ids beyond [Number.MAX_SAFE_INTEGER] *)

(** X20: an id that JavaScript does not hold exactly stops the queue.
    When the head of the window was read from a stored row whose id, as a
    JavaScript number, is the id of no stored row, [done()] sends a DELETE
    that removes nothing: the table is as it was, nothing is emitted and
    the process ends.  This happens only for an id beyond
    [Number.MAX_SAFE_INTEGER]. *)
Theorem done_on_rounded_id_exits
  (q : PQ) (d : database) (r : row) (w : list (option Job)) :
  db q = Some d ->
  queue q = parse_row r :: w -> parses r = true ->
  In r (rows d) ->
  ~ In (js_number (row_id r)) (map row_id (rows d)) ->
  done q None =
    {| st := set_db (set_queue q w)
               (Some (fst (sql_delete d (js_number (row_id r)))));
       evs := []; out := ProcessExit |}
  /\ rows (fst (sql_delete d (js_number (row_id r)))) = rows d
  /\ ~ safe_id (row_id r).
Proof.
  intros Hd Hq Hp Hin Hn.
  assert (Hu : ~ safe_id (row_id r)).
  { intros Hs. apply Hn. rewrite (js_number_safe _ Hs). apply in_map, Hin. }
  split; [|split; [|exact Hu]].
  - unfold done, removeJob. rewrite Hq. unfold parse_row, parses in *.
    destruct (parse (row_job r)) as [p|]; [|discriminate]. cbn [id].
    rewrite (removeJob_promise_eq (set_queue q w) d (js_number (row_id r)) Hd).
    unfold delete_settles. rewrite (has_id_absent _ _ Hn). reflexivity.
  - simpl. apply keeps_absent, Hn.
Qed.

(** ** Ids are not handed out twice *)








End Queue.

Arguments EvEmpty {payload}.
Arguments EvOpen {payload}.
Arguments EvClose {payload}.
Arguments EvDelete {payload} i.
Arguments EvNext {payload} j.
Arguments Done {payload} i.
Arguments Delete {payload} i.
Arguments Start {payload}.
Arguments Stop {payload}.

(** * Closed instances: string payloads

    The queues of the examples are opened in sloppy code, where [open()]
    is fulfilled. *)

Local Abbreviation run_str := (run_ops str_stringify str_parse).
Local Abbreviation opened_str := (opened_on str_parse false).

Lemma disk3_key : NoDup (map row_id (rows disk3)).
Proof.
  simpl. repeat constructor; simpl; intuition discriminate.
Defined.

Lemma disk3_seq : forall r, In r (rows disk3) -> row_id r <= seq disk3.
Proof.
  intros r [<-|[<-|[<-|[]]]]; simpl; lia.
Defined.

Lemma disk3_safe : safe_store disk3.
Proof.
  intros r [<-|[<-|[<-|[]]]]; unfold safe_id, max_safe_integer; simpl; lia.
Defined.




Lemma getLength_is_adds_minus_removals_witness :
  exists q' es,
    run_all str_stringify str_parse (opened_str disk3 2)
      ([Start] ++ map (@Add string) ["d"%string; "e"%string]
       ++ [Done None; Delete (Some 4)]) = Some (q', es)
    /\ getLength q' = VNum 3.
Proof.
  eexists. eexists. split.
  - vm_compute. reflexivity.
  - eapply proj1.
    eapply (getLength_is_adds_minus_removals string str_stringify str_parse false
              disk3 (fresh string 2))
      with (pre := [Start]) (ps := ["d"%string; "e"%string])
           (rs := [Done None; Delete (Some 4)]).
    + reflexivity.
    + reflexivity.
    + reflexivity.
    + vm_compute. reflexivity.
Defined.

(** C3 fails as stated: on a queue opened on three stored jobs, two
    successful adds followed by two successful removals leave [getLength()]
    at 3, not at the number of adds minus the number of removals. *)
Lemma getLength_counts_jobs_stored_at_open :
  option_map (fun r => getLength (fst r))
    (run_all str_stringify str_parse (opened_str disk3 2)
       (map (@Add string) ["d"%string; "e"%string]
        ++ [Done None; Delete (Some 4)]))
  = Some (VNum 3)
  /\ VNum 3 <>
     VNum (Z.of_nat (List.length ["d"%string; "e"%string])
           - Z.of_nat (List.length [@Done string None; Delete (Some 4)])).
Proof.
  split; [reflexivity|discriminate].
Qed.

(** C4, on the code: the emptiness flag is set by [open()] and by the
    trigger only, and [delete] never triggers.  A stopped queue drained by
    [done(1)] has [getLength()] 0 and [isEmpty()] false.  A running queue
    whose only job was told and then removed by [delete(1)] has
    [getLength()] 0 and [isEmpty()] false as well, and since the ['add']
    listener wakes the queue only when the flag is true, the next [add] is
    stored and counted but never told. *)
Theorem isEmpty_false_on_drained_queue :
  getLength (final (run_str (opened_str empty_disk 10)
                      [Add "a"%string; Done (Some 1)])) = VNum 0
  /\ isEmpty (final (run_str (opened_str empty_disk 10)
                       [Add "a"%string; Done (Some 1)]))
     = Returned (VBool false)
  /\ alive (run_str (opened_str empty_disk 10)
              [Start; Add "a"%string; Delete (Some 1)]) = true
  /\ next_ids (seen (run_str (opened_str empty_disk 10)
                       [Start; Add "a"%string; Delete (Some 1)])) = [1]
  /\ isStarted (final (run_str (opened_str empty_disk 10)
                         [Start; Add "a"%string; Delete (Some 1)])) = true
  /\ getLength (final (run_str (opened_str empty_disk 10)
                         [Start; Add "a"%string; Delete (Some 1)])) = VNum 0
  /\ isEmpty (final (run_str (opened_str empty_disk 10)
                       [Start; Add "a"%string; Delete (Some 1)]))
     = Returned (VBool false)
  /\ evs (add str_stringify str_parse
            (final (run_str (opened_str empty_disk 10)
                      [Start; Add "a"%string; Delete (Some 1)])) "b"%string)
     = [EvAdd VUndefined "b"%string]
  /\ getLength (st (add str_stringify str_parse
                      (final (run_str (opened_str empty_disk 10)
                                [Start; Add "a"%string; Delete (Some 1)]))
                      "b"%string))
     = VNum 1.
Proof.
  repeat split.
Qed.

Lemma isEmpty_implies_no_jobs_witness :
  getLength (final (run_str (opened_str disk3 2)
                      [Start; Done None; Done None; Done None])) = VNum 0.
Proof.
  eapply (isEmpty_implies_no_jobs string str_stringify str_parse false
            (fresh string 2) disk3).
  - simpl. lia.
  - exact disk3_key.
  - reflexivity.
  - reflexivity.
  - reflexivity.
Defined.

(** C5, on the code: the first [add] on an empty store inserts the row
    with id 1, tells the listeners [{ id: undefined, job: "a" }] and
    fulfils its promise with [undefined]. *)
Theorem add_reports_undefined_id :
  out (add str_stringify str_parse (opened_str empty_disk 10) "a"%string)
    = Fulfilled VUndefined
  /\ evs (add str_stringify str_parse (opened_str empty_disk 10) "a"%string)
     = [EvAdd VUndefined "a"%string]
  /\ option_map (fun d => map row_id (rows d))
       (db (st (add str_stringify str_parse (opened_str empty_disk 10) "a"%string)))
     = Some [1].
Proof.
  repeat split.
Qed.

(** C6, on the code: [has] rejects its promise with the answer; it never
    fulfils it.  Right after the add that stored job 1 the promise of
    [has(1)] is rejected with [true], and after [done(1)] it is rejected
    with [false]. *)
Theorem has_rejects_with_the_answer :
  out (has (final (run_str (opened_str empty_disk 10) [Add "a"%string])) 1)
    = Rejected (VBool true)
  /\ out (has (final (run_str (opened_str empty_disk 10)
                        [Add "a"%string; Done (Some 1)])) 1)
     = Rejected (VBool false).
Proof.
  split; reflexivity.
Qed.

(** C7, on the code: when no job matches, [getFirstJobId] fulfils its
    promise with [undefined], not with [null]; a job that is stored beyond
    the window is still found through the search of the table. *)
Theorem getFirstJobId_not_found_is_undefined :
  out (getFirstJobId str_stringify (opened_str disk3 2) "zz"%string)
    = Fulfilled VUndefined
  /\ out (getFirstJobId str_stringify (opened_str disk3 2) "c"%string)
     = Fulfilled (VNum 3)
  /\ out (getFirstJobId str_stringify (opened_str disk3 2) "a"%string)
     = Fulfilled (VNum 1).
Proof.
  repeat split.
Qed.

(** C8 fails as stated: after [open()] on three jobs and [close()], the
    count is still 3, while it was [null] before [open()]. *)
Lemma close_keeps_the_count :
  out (close (opened_str disk3 2)) = Fulfilled VUndefined
  /\ getLength (st (close (opened_str disk3 2))) = VNum 3
  /\ getLength (fresh string 2) = VNull.
Proof.
  repeat split.
Qed.

Lemma close_resets_all_but_count_witness :
  out (close (opened_str disk3 2)) = Fulfilled VUndefined
  /\ evs (close (opened_str disk3 2)) = [EvClose]
  /\ queue (st (close (opened_str disk3 2))) = []
  /\ empty (st (close (opened_str disk3 2))) = None
  /\ run (st (close (opened_str disk3 2))) = false
  /\ opened (st (close (opened_str disk3 2))) = false
  /\ db (st (close (opened_str disk3 2))) = None
  /\ getLength (st (close (opened_str disk3 2))) = getLength (opened_str disk3 2).
Proof.
  apply (close_resets_all_but_count string (opened_str disk3 2) (sql_schema disk3)).
  reflexivity.
Defined.

Lemma construct_validates_arguments_witness :
  exists q,
    construct string (Some ""%string) (VNum 5) = inl q
    /\ dbPath q = ":memory:"%string /\ batchSize q = 5.
Proof.
  destruct (construct_validates_arguments string) as (_ & _ & _ & _ & H).
  apply (H (VNum 5) 5). right. split; [reflexivity|lia].
Defined.

(** C10 fails as stated: [delete()] on an empty window does not throw; it
    returns a rejected promise. *)
Lemma delete_without_id_rejects :
  queue (opened_str empty_disk 10) = []
  /\ out (delete (opened_str empty_disk 10) None)
     = Rejected (TypeError "id of undefined")
  /\ (forall e, out (delete (opened_str empty_disk 10) None) <> Threw e).
Proof.
  split; [reflexivity|]. split; [reflexivity|]. intros e H. discriminate H.
Qed.

Lemma removal_without_id_on_empty_window_witness :
  done str_parse (opened_str empty_disk 10) None =
    {| st := opened_str empty_disk 10; evs := [];
       out := Threw (TypeError "id of undefined") |}
  /\
  delete (opened_str empty_disk 10) None =
    {| st := opened_str empty_disk 10; evs := [];
       out := Rejected (TypeError "id of undefined") |}.
Proof.
  apply (removal_without_id_on_empty_window string str_parse
           (opened_str empty_disk 10)).
  reflexivity.
Defined.

(** * Closed instances of the properties beyond the claims *)

(** A state reached by working: three jobs stored, batch size 2, then
    [start()], [done()] and [add("d")]. *)
Local Abbreviation worked :=
  (final (run_str (opened_str disk3 2) [Start; Done None; Add "d"%string])).

(** What the database of [worked] holds. *)
Local Abbreviation worked_db :=
  {| rows := [ {| row_id := 2; row_job := str_stringify "b" |};
               {| row_id := 3; row_job := str_stringify "c" |};
               {| row_id := 4; row_job := str_stringify "d" |} ];
     counter := 3; seq := 4; vacuums := 0 |}.

Lemma worked_reachable : reachable string str_stringify str_parse false worked.
Proof.
  exists (fresh string 2), disk3.
  eexists. exists [Start; Done None; Add "d"%string].
  split; [simpl; lia|]. split; [exact disk3_key|]. split; [exact disk3_seq|].
  split; [exact disk3_safe|]. split; [reflexivity|].
  split; [reflexivity|]. split; reflexivity.
Qed.



Lemma unopened_queue_refuses_witness :
  done str_parse (fresh string 2) (Some 1) =
    {| st := fresh string 2; evs := []; out := ProcessExit |}
  /\ getFirstJobId str_stringify (fresh string 2) "a"%string =
       {| st := fresh string 2; evs := [];
          out := Uncaught (VStr "Open queue database before starting queue") |}.
Proof.
  destruct (unopened_queue_refuses string str_stringify str_parse
              (Some "jobs.db"%string) (VNum 2) (fresh string 2) eq_refl)
    as (_ & _ & _ & _ & _ & _ & _ & H & _ & _ & G).
  split; [apply (H 1)|apply (G "a"%string)].
Defined.

Lemma stop_suppresses_consumption_witness :
  existsb (is_consumption string)
    (seen (run_str worked
             [Stop; Add "e"%string; Done None; Delete (Some 3); Stop])) = false
  /\ isStarted (final (run_str worked
                         [Stop; Add "e"%string; Done None; Delete (Some 3); Stop]))
     = false.
Proof.
  apply (stop_suppresses_consumption string str_stringify str_parse worked
           [Add "e"%string; Done None; Delete (Some 3); Stop]).
  reflexivity.
Defined.

Lemma start_twice_is_start_once_witness :
  start str_parse (st (start str_parse (opened_str disk3 2))) =
    {| st := st (start str_parse (opened_str disk3 2)); evs := [];
       out := Returned VUndefined |}.
Proof.
  apply (start_twice_is_start_once string str_parse (opened_str disk3 2)
           (sql_schema disk3)).
  reflexivity.
Defined.

Lemma open_establishes_state_witness :
  isOpen (opened_str disk3 2) = true
  /\ getLength (opened_str disk3 2) = VNum 3
  /\ isEmpty (opened_str disk3 2) = Returned (VBool false).
Proof.
  destruct (open_establishes_state string str_parse false (fresh string 2) disk3 _
              ltac:(simpl; lia) eq_refl)
    as (H1 & H2 & H3 & _).
  split; [exact H1|]. split; [exact H2|exact H3].
Defined.

Lemma open_rejects_on_bad_row_witness :
  out (open str_parse false bad_disk (fresh string 2)) = Rejected SyntaxError
  /\ isOpen (st (open str_parse false bad_disk (fresh string 2))) = false.
Proof.
  destruct (open_rejects_on_bad_row string str_parse false (fresh string 2) bad_disk
              eq_refl eq_refl) as (H1 & _ & H3 & _).
  split; [exact H1|exact H3].
Defined.

Lemma open_in_strict_code_never_settles_witness :
  out (open str_parse true disk3 (fresh string 2)) =
    Uncaught (TypeError "length of undefined")
  /\ isOpen (st (open str_parse true disk3 (fresh string 2))) = false
  /\ queue (st (open str_parse true disk3 (fresh string 2))) = [].
Proof.
  destruct (open_in_strict_code_never_settles string str_parse true
              (fresh string 2) disk3 eq_refl) as (H1 & H2 & H3 & _).
  rewrite H1. split; [reflexivity|]. split; [exact H2|exact H3].
Defined.

Lemma window_never_exceeds_batchSize_witness :
  Z.of_nat (List.length
              (queue (final (run_str (opened_str disk3 2)
                               [Start; Add "d"%string; Done None; Done None]))))
    <= 2.
Proof.
  apply (proj1 (window_never_exceeds_batchSize string str_stringify str_parse false
                  (Some "jobs.db"%string) (VNum 2) (fresh string 2) disk3
                  [Start; Add "d"%string; Done None; Done None] eq_refl)).
Defined.

Lemma getJobIds_lists_matching_rows_witness :
  out (getJobIds str_stringify (opened_str disk3 2) "c"%string)
    = Fulfilled (VArr [VNum 3]).
Proof.
  destruct (getJobIds_lists_matching_rows string str_stringify
              (opened_str disk3 2) (sql_schema disk3) "c"%string
              eq_refl disk3_key) as (H & _).
  rewrite H. reflexivity.
Defined.

Lemma add_then_getJobIds_witness :
  out (getJobIds str_stringify
         (st (add str_stringify str_parse (opened_str disk3 2) "a"%string))
         "a"%string)
    = Fulfilled (VArr [VNum 1; VNum 4]).
Proof.
  destruct (add_then_getJobIds string str_stringify str_parse
              (opened_str disk3 2) (sql_schema disk3) "a"%string eq_refl)
    as (H & _).
  rewrite H. reflexivity.
Defined.



Lemma delete_removes_exactly_that_job_witness :
  out (delete worked (Some 3)) = Fulfilled (VNum 3)
  /\ evs (delete worked (Some 3)) = [EvDelete (Some 3)]
  /\ getLength (st (delete worked (Some 3))) = VNum 2.
Proof.
  destruct (delete_removes_exactly_that_job string str_stringify str_parse false
              worked worked_db 3
              worked_reachable eq_refl)
    as (H1 & H2 & H3 & _).
  - simpl. intuition.
  - split; [exact H1|]. split; [exact H2|exact H3].
Defined.



Lemma reopen_recovers_count_witness :
  getLength (st (open str_parse false worked_db (st (close worked))))
    = getLength worked.
Proof.
  refine (proj1 (proj1 (proj2 (reopen_recovers_count string str_stringify
                                 str_parse false worked worked_db _
                                 worked_reachable eq_refl _)) _)).
  - reflexivity.
  - discriminate.
Defined.

Lemma counts_agree_witness :
  exists d,
    db worked = Some d
    /\ getLength worked = VNum (sql_count d)
    /\ sql_count d = Z.of_nat (List.length (rows d)).
Proof.
  apply (counts_agree string str_stringify str_parse false worked worked_reachable).
Defined.



Lemma done_on_rounded_id_exits_witness :
  next_ids (evs (start str_parse (opened_str big_disk 10)))
    = [9007199254740992]
  /\ out (done str_parse (st (start str_parse (opened_str big_disk 10))) None)
     = ProcessExit.
Proof.
  split; [reflexivity|].
  destruct (done_on_rounded_id_exits string str_parse
              (st (start str_parse (opened_str big_disk 10)))
              (sql_schema big_disk)
              {| row_id := 9007199254740993; row_job := str_stringify "a" |}
              [] eq_refl eq_refl eq_refl) as (H & _).
  - left. reflexivity.
  - simpl. intros [H|[]]. discriminate H.
  - rewrite H. reflexivity.
Defined.
